(** * visual-word-embeddings: the embedding scene's vocabulary, similarity
      and selection logic

    A shallow embedding of [src/components/EmbeddingScene.tsx]: the cosine
    distance, the k-nearest-neighbour query, word validation, the two ways of
    adding a word, the click handler of a word point, and the effect that
    loads the sentence-encoder model.

    JavaScript numbers are IEEE 754 binary64 values; they are modelled by
    Rocq's primitive floats, whose operations are the same binary64
    operations.  [Math.sin] and [Math.cos] are implementation-approximated in
    ECMAScript and stay parameters.  Arrays are lists, array indices are
    [nat], and a string is a [string] of 8-bit code units (every word the
    component accepts consists of ASCII letters). *)

From Stdlib Require Import List String Ascii Bool Arith ZArith Lia.
From Stdlib Require Import Uint63 Floats.
From Stdlib Require Import Sorted Permutation.
Import ListNotations.

Local Open Scope list_scope.

(** ** JavaScript numbers *)

Module JS.

Definition number := float.

(** An integer-valued number (exact below 2^53). *)
Definition number_of_Z (z : Z) : number :=
  match z with
  | Z0 => 0%float
  | Zpos _ => of_uint63 (Uint63.of_Z z)
  | Zneg p => (- of_uint63 (Uint63.of_Z (Zpos p)))%float
  end.

Definition number_of_nat (n : nat) : number := number_of_Z (Z.of_nat n).

(** [b[i]] on an array of numbers, used inside arithmetic: an index out of
    range reads [undefined], which arithmetic converts to [NaN]. *)
Definition at_index (b : list number) (i : nat) : number := nth i b nan.

(** [arr.reduce((acc, val, i) => f(acc, val, i), init)]. *)
Fixpoint reduce_from {A B : Type} (f : B -> A -> nat -> B)
         (arr : list A) (i : nat) (acc : B) : B :=
  match arr with
  | [] => acc
  | val :: rest => reduce_from f rest (S i) (f acc val i)
  end.

Definition reduce {A B : Type} (f : B -> A -> nat -> B)
           (arr : list A) (init : B) : B :=
  reduce_from f arr 0 init.

(** [arr.map((x, i) => f(x, i))]. *)
Fixpoint mapi_from {A B : Type} (f : A -> nat -> B)
         (arr : list A) (i : nat) : list B :=
  match arr with
  | [] => []
  | x :: rest => f x i :: mapi_from f rest (S i)
  end.

Definition mapi {A B : Type} (f : A -> nat -> B) (arr : list A) : list B :=
  mapi_from f arr 0.

(** [arr.slice(start, end)] for non-negative bounds. *)
Definition slice {A : Type} (arr : list A) (start stop : nat) : list A :=
  firstn (stop - start) (skipn start arr).

(** [arr.sort(comparefn)].  ECMAScript calls [comparefn(x, y)], reads a
    [NaN] result as [+0], and requires the sort to be stable.  For a
    consistent comparator every stable sort returns the same array; the
    model is the stable insertion sort, which places [x] after [y] exactly
    when [comparefn(x, y) > 0].  The comparator of the component is
    consistent when no distance is NaN, and when no comparison it makes is
    positive (every pair is NaN on a side, or equal).  Otherwise, with a NaN
    distance among finite ones that are not yet in order, ECMAScript leaves
    the order to the engine: the model is then one admissible order, and V8
    can return another.  The general statements below stay inside the two
    consistent cases, or say only what holds of every rearrangement of the
    array; on the arrays of the examples with a NaN distance V8 finds a
    single ascending run and returns the same. *)
Definition placed_after (v : number) : bool := (0 <? v)%float.

Fixpoint insert {A : Type} (comparefn : A -> A -> number)
         (x : A) (sorted : list A) : list A :=
  match sorted with
  | [] => [x]
  | y :: rest =>
      if placed_after (comparefn x y)
      then y :: insert comparefn x rest
      else x :: sorted
  end.

Definition sort {A : Type} (comparefn : A -> A -> number)
           (arr : list A) : list A :=
  fold_right (insert comparefn) [] arr.

(** [arr.indexOf(x)] on an array of strings; [None] stands for [-1]. *)
Fixpoint indexOf_from (arr : list string) (x : string) (i : nat)
  : option nat :=
  match arr with
  | [] => None
  | y :: rest => if String.eqb y x then Some i else indexOf_from rest x (S i)
  end.

Definition indexOf (arr : list string) (x : string) : option nat :=
  indexOf_from arr x 0.

(** Code units and the string methods the component calls. *)
Definition charCode (c : ascii) : Z := Z.of_nat (nat_of_ascii c).

Definition in_range (lo hi : Z) (c : ascii) : bool :=
  ((lo <=? charCode c) && (charCode c <=? hi))%Z.

(** WhiteSpace and LineTerminator code units below 256. *)
Definition isWhiteSpace (c : ascii) : bool :=
  in_range 9 13 c || (charCode c =? 32)%Z || (charCode c =? 160)%Z.

Fixpoint trimStart (s : string) : string :=
  match s with
  | EmptyString => EmptyString
  | String c rest => if isWhiteSpace c then trimStart rest else s
  end.

Fixpoint rev_string (s acc : string) : string :=
  match s with
  | EmptyString => acc
  | String c rest => rev_string rest (String c acc)
  end.

Definition trim (s : string) : string :=
  rev_string (trimStart (rev_string (trimStart s) EmptyString)) EmptyString.

(** [toLowerCase] on code units below 256: A-Z and the Latin-1 capitals. *)
Definition lowerChar (c : ascii) : ascii :=
  if in_range 65 90 c || in_range 192 214 c || in_range 216 222 c
  then ascii_of_nat (nat_of_ascii c + 32)
  else c.

Fixpoint toLowerCase (s : string) : string :=
  match s with
  | EmptyString => EmptyString
  | String c rest => String (lowerChar c) (toLowerCase rest)
  end.

(** [s.split("")]. *)
Definition split_chars (s : string) : list ascii := list_ascii_of_string s.

(** [/^[a-zA-Z]+$/.test(s)]. *)
Definition isLetter (c : ascii) : bool :=
  in_range 65 90 c || in_range 97 122 c.

Fixpoint all_letters (s : string) : bool :=
  match s with
  | EmptyString => true
  | String c rest => isLetter c && all_letters rest
  end.

Definition test_only_letters (s : string) : bool :=
  match s with
  | EmptyString => false
  | String _ _ => all_letters s
  end.

(** [!s] for a string: the empty string is falsy. *)
Definition falsy (s : string) : bool :=
  match s with EmptyString => true | String _ _ => false end.

End JS.

(** ** Similarity *)

Record Item := { index : nat; distance : JS.number }.

(** [cosineDistance] (lines 68-73). *)
Definition cosineDistance (a b : list JS.number) : JS.number :=
  let dot := JS.reduce (fun acc val i => acc + val * JS.at_index b i)%float a 0%float in
  let normA := sqrt (JS.reduce (fun acc val _ => acc + val * val)%float a 0%float) in
  let normB := sqrt (JS.reduce (fun acc val _ => acc + val * val)%float b 0%float) in
  (1 - dot / (normA * normB))%float.

(** The comparator handed to [sort] (line 82). *)
Definition byDistance (a b : Item) : JS.number :=
  (distance a - distance b)%float.

(** [findNearestNeighbors] (lines 76-85), over the embeddings the component
    currently holds. *)
Definition findNearestNeighbors (currentEmbeddings : list (list JS.number))
           (embedding : list JS.number) (k : nat) : list nat :=
  let distances := map (fun e => cosineDistance e embedding) currentEmbeddings in
  let sortedIndexes :=
    JS.slice
      (JS.sort byDistance
         (JS.mapi (fun d i => {| index := i; distance := d |}) distances))
      1 (k + 1) in
  map index sortedIndexes.

(** ** Component state *)

(** The loaded sentence encoder, seen through the one call the component
    makes: [model.embed([w])] followed by [array()] and [Array.from] of row 0.
    [None] is a rejected promise.  The function gives the outcome of one
    call.  The source can reject a call and fulfil the next one for the same
    word; no statement below relies on a rejected call being rejected
    again. *)
Definition Encoder := string -> option (list JS.number).

(** The [useState] cells of [EmbeddingScene] (lines 21-33 and 182). *)
Record State := {
  currentVocab : list string;
  currentEmbeddings : list (list JS.number);
  inputValue : string;
  isInputVisible : bool;
  validationError : string;
  highlightedWord : option string;
  isProcessing : bool;
  model : option Encoder;
  isModelLoading : bool;
  nearestIndexes : list nat
}.

Definition setCurrentVocab (f : list string -> list string) (st : State) : State :=
  {| currentVocab := f (currentVocab st);
     currentEmbeddings := currentEmbeddings st;
     inputValue := inputValue st;
     isInputVisible := isInputVisible st;
     validationError := validationError st;
     highlightedWord := highlightedWord st;
     isProcessing := isProcessing st;
     model := model st;
     isModelLoading := isModelLoading st;
     nearestIndexes := nearestIndexes st |}.

Definition setCurrentEmbeddings
           (f : list (list JS.number) -> list (list JS.number)) (st : State) : State :=
  {| currentVocab := currentVocab st;
     currentEmbeddings := f (currentEmbeddings st);
     inputValue := inputValue st;
     isInputVisible := isInputVisible st;
     validationError := validationError st;
     highlightedWord := highlightedWord st;
     isProcessing := isProcessing st;
     model := model st;
     isModelLoading := isModelLoading st;
     nearestIndexes := nearestIndexes st |}.

Definition setInputValue (v : string) (st : State) : State :=
  {| currentVocab := currentVocab st;
     currentEmbeddings := currentEmbeddings st;
     inputValue := v;
     isInputVisible := isInputVisible st;
     validationError := validationError st;
     highlightedWord := highlightedWord st;
     isProcessing := isProcessing st;
     model := model st;
     isModelLoading := isModelLoading st;
     nearestIndexes := nearestIndexes st |}.

Definition setIsInputVisible (v : bool) (st : State) : State :=
  {| currentVocab := currentVocab st;
     currentEmbeddings := currentEmbeddings st;
     inputValue := inputValue st;
     isInputVisible := v;
     validationError := validationError st;
     highlightedWord := highlightedWord st;
     isProcessing := isProcessing st;
     model := model st;
     isModelLoading := isModelLoading st;
     nearestIndexes := nearestIndexes st |}.

Definition setValidationError (v : string) (st : State) : State :=
  {| currentVocab := currentVocab st;
     currentEmbeddings := currentEmbeddings st;
     inputValue := inputValue st;
     isInputVisible := isInputVisible st;
     validationError := v;
     highlightedWord := highlightedWord st;
     isProcessing := isProcessing st;
     model := model st;
     isModelLoading := isModelLoading st;
     nearestIndexes := nearestIndexes st |}.

Definition setHighlightedWord (v : option string) (st : State) : State :=
  {| currentVocab := currentVocab st;
     currentEmbeddings := currentEmbeddings st;
     inputValue := inputValue st;
     isInputVisible := isInputVisible st;
     validationError := validationError st;
     highlightedWord := v;
     isProcessing := isProcessing st;
     model := model st;
     isModelLoading := isModelLoading st;
     nearestIndexes := nearestIndexes st |}.

Definition setIsProcessing (v : bool) (st : State) : State :=
  {| currentVocab := currentVocab st;
     currentEmbeddings := currentEmbeddings st;
     inputValue := inputValue st;
     isInputVisible := isInputVisible st;
     validationError := validationError st;
     highlightedWord := highlightedWord st;
     isProcessing := v;
     model := model st;
     isModelLoading := isModelLoading st;
     nearestIndexes := nearestIndexes st |}.

Definition setModel (v : option Encoder) (st : State) : State :=
  {| currentVocab := currentVocab st;
     currentEmbeddings := currentEmbeddings st;
     inputValue := inputValue st;
     isInputVisible := isInputVisible st;
     validationError := validationError st;
     highlightedWord := highlightedWord st;
     isProcessing := isProcessing st;
     model := v;
     isModelLoading := isModelLoading st;
     nearestIndexes := nearestIndexes st |}.

Definition setIsModelLoading (v : bool) (st : State) : State :=
  {| currentVocab := currentVocab st;
     currentEmbeddings := currentEmbeddings st;
     inputValue := inputValue st;
     isInputVisible := isInputVisible st;
     validationError := validationError st;
     highlightedWord := highlightedWord st;
     isProcessing := isProcessing st;
     model := model st;
     isModelLoading := v;
     nearestIndexes := nearestIndexes st |}.

Definition setNearestIndexes (v : list nat) (st : State) : State :=
  {| currentVocab := currentVocab st;
     currentEmbeddings := currentEmbeddings st;
     inputValue := inputValue st;
     isInputVisible := isInputVisible st;
     validationError := validationError st;
     highlightedWord := highlightedWord st;
     isProcessing := isProcessing st;
     model := model st;
     isModelLoading := isModelLoading st;
     nearestIndexes := v |}.

(** The props the page passes in, as the initial state. *)
Definition initialState (vocab : list string) (embeddings : list (list JS.number))
  : State :=
  {| currentVocab := vocab;
     currentEmbeddings := embeddings;
     inputValue := "";
     isInputVisible := false;
     validationError := "";
     highlightedWord := None;
     isProcessing := false;
     model := None;
     isModelLoading := false;
     nearestIndexes := [] |}.

(** ** Adding a word *)

(** [validateWord] (lines 88-101): the verdict and the state with the
    message it sets. *)
Definition validateWord (word : string) (st : State) : bool * State :=
  if JS.falsy (JS.trim word)
  then (false, setValidationError "Please enter a word." st)
  else
    let valid := JS.test_only_letters word in
    if negb valid
    then (valid, setValidationError "Invalid word. Please use only letters." st)
    else (valid, setValidationError "" st).

(** [addWord] (lines 104-134), with the two awaits resolved by the encoder's
    answer. *)
Definition addWord (newWord : string) (st : State) : State :=
  let (ok, st) := validateWord newWord st in
  if negb ok then st
  else
    match model st with
    | None =>
        setValidationError "Model is still loading. Please try again in a moment." st
    | Some encoder =>
        let st := setIsProcessing true st in
        let st :=
          match encoder (JS.toLowerCase newWord) with
          | Some newEmbedding =>
              let st := setCurrentVocab (fun prevVocab => prevVocab ++ [newWord]) st in
              let st :=
                setCurrentEmbeddings
                  (fun prevEmbeddings => prevEmbeddings ++ [newEmbedding]) st in
              let st := setInputValue "" st in
              let st := setIsInputVisible false st in
              setHighlightedWord (Some newWord) st
          | None =>
              setValidationError "Failed to generate embedding for this word." st
          end in
        setIsProcessing false st
    end.

Section Scene.

(** [Math.sin] and [Math.cos]. *)
Variables Math_sin Math_cos : JS.number -> JS.number.

(** The vector built inside [fallbackAddWord] (lines 144-156).  For an empty
    [charValues] the index [i % 0] is [NaN] and the read is [undefined]; here
    [i mod 0 = i] reads out of range, with the same [NaN] as value. *)
Definition simpleEmbedding (newWord : string) : list JS.number :=
  let chars := JS.split_chars (JS.toLowerCase newWord) in
  let charValues := map (fun c => JS.number_of_Z (JS.charCode c - 96)) chars in
  map (fun i =>
         let charIndex := i mod List.length charValues in
         let charValue := JS.at_index charValues charIndex in
         let position := (JS.number_of_nat i / 100)%float in
         (Math_sin (charValue * position) * Math_cos charValue)%float)
      (seq 0 100).

(** [fallbackAddWord] (lines 137-172). *)
Definition fallbackAddWord (newWord : string) (st : State) : State :=
  let (ok, st) := validateWord newWord st in
  if negb ok then st
  else
    let st := setIsProcessing true st in
    let st := setCurrentVocab (fun prevVocab => prevVocab ++ [newWord]) st in
    let st :=
      setCurrentEmbeddings
        (fun prevEmbeddings => prevEmbeddings ++ [simpleEmbedding newWord]) st in
    let st := setInputValue "" st in
    let st := setIsInputVisible false st in
    let st := setHighlightedWord (Some newWord) st in
    setIsProcessing false st.

(** [handleAddWord] (lines 174-180). *)
Definition handleAddWord (st : State) : State :=
  match model st with
  | Some _ => addWord (inputValue st) st
  | None => fallbackAddWord (inputValue st) st
  end.

(** ** Selecting a word *)

(** [highlightedWord === word]. *)
Definition isHighlighted (st : State) (word : string) : bool :=
  match highlightedWord st with
  | Some w => String.eqb w word
  | None => false
  end.

(** The [onSelect] handler of a word point (lines 264-280).  When
    [currentEmbeddings[idx]] is [undefined], [findNearestNeighbors] throws on
    the first stored vector (so the handler stops after highlighting), and
    returns the empty array when nothing is stored. *)
Definition onSelect (word : string) (st : State) : State :=
  if isHighlighted st word
  then setNearestIndexes [] (setHighlightedWord None st)
  else
    let st := setHighlightedWord (Some word) st in
    match JS.indexOf (currentVocab st) word with
    | None => st
    | Some idx =>
        match nth_error (currentEmbeddings st) idx with
        | Some embedding =>
            setNearestIndexes
              (findNearestNeighbors (currentEmbeddings st) embedding 5) st
        | None =>
            match currentEmbeddings st with
            | [] => setNearestIndexes [] st
            | _ :: _ => st
            end
        end
    end.

(** ** Model loading and the event loop *)

(** The component between events: its state cells, the dependency values
    [[model, isModelLoading]] of the last committed render ([None] before the
    first), the [use.load()] promises still pending, and how many times
    [use.load()] has been called.

    React runs an effect after the first render, and after a later render
    when a dependency differs from the previous render's.  [model] is
    compared by identity; it only ever changes from [null] to a loaded
    encoder, so its presence stands for it.  Events are taken one at a time,
    each followed at some point by a render: the settlement of a load
    arrives after the render that showed the loading flag. *)
Record Runtime := {
  cells : State;
  effectDeps : option (bool * bool);
  pendingLoads : nat;
  loadCalls : nat
}.

Definition hasModel (st : State) : bool :=
  match model st with Some _ => true | None => false end.

Definition depsOf (st : State) : bool * bool := (hasModel st, isModelLoading st).

Definition sameDeps (old : option (bool * bool)) (new : bool * bool) : bool :=
  match old with
  | Some (m, l) => Bool.eqb m (fst new) && Bool.eqb l (snd new)
  | None => false
  end.

(** The synchronous part of [loadUSEModel] (lines 37-40): the guard, the
    flag, and the call of [use.load()]. *)
Definition loadUSEModel (rt : Runtime) : Runtime :=
  if negb (hasModel (cells rt)) && negb (isModelLoading (cells rt))
  then {| cells := setIsModelLoading true (cells rt);
          effectDeps := effectDeps rt;
          pendingLoads := S (pendingLoads rt);
          loadCalls := S (loadCalls rt) |}
  else rt.

(** A committed render: the effect of lines 36-54 runs when its dependencies
    differ from those of the previous render. *)
Definition render (rt : Runtime) : Runtime :=
  let deps := depsOf (cells rt) in
  let rt' := {| cells := cells rt;
                effectDeps := Some deps;
                pendingLoads := pendingLoads rt;
                loadCalls := loadCalls rt |} in
  if sameDeps (effectDeps rt) deps then rt' else loadUSEModel rt'.

(** The rest of [loadUSEModel] (lines 42-49), run when the pending promise
    settles: [loaded] is the encoder, or [None] for a rejection. *)
Definition loadSettled (loaded : option Encoder) (rt : Runtime) : Runtime :=
  match pendingLoads rt with
  | O => rt
  | S pending =>
      let st := cells rt in
      let st := match loaded with
                | Some encoder => setModel (Some encoder) st
                | None => st
                end in
      {| cells := setIsModelLoading false st;
         effectDeps := effectDeps rt;
         pendingLoads := pending;
         loadCalls := loadCalls rt |}
  end.

Definition onCells (f : State -> State) (rt : Runtime) : Runtime :=
  {| cells := f (cells rt);
     effectDeps := effectDeps rt;
     pendingLoads := pendingLoads rt;
     loadCalls := loadCalls rt |}.

Inductive Event :=
| Render
| LoadResolved (encoder : Encoder)
| LoadRejected
| ShowInput
| ChangeInput (value : string)
| ClickAdd
| ClickCancel
| ClickWord (word : string).

Definition step (rt : Runtime) (ev : Event) : Runtime :=
  match ev with
  | Render => render rt
  | LoadResolved encoder => loadSettled (Some encoder) rt
  | LoadRejected => loadSettled None rt
  | ShowInput => onCells (setIsInputVisible true) rt
  | ChangeInput value => onCells (setInputValue value) rt
  | ClickAdd => onCells handleAddWord rt
  | ClickCancel => onCells (setIsInputVisible false) rt
  | ClickWord word => onCells (onSelect word) rt
  end.

Definition run (rt : Runtime) (trace : list Event) : Runtime :=
  fold_left step trace rt.

Definition mount (vocab : list string) (embeddings : list (list JS.number))
  : Runtime :=
  {| cells := initialState vocab embeddings;
     effectDeps := None;
     pendingLoads := 0;
     loadCalls := 0 |}.

End Scene.

(** ** What the scene draws *)

(** The [isHighlighted] prop of the point at index [i] (lines 260-263);
    [currentVocab[i]] out of range is [undefined], which is not [===] to a
    word or to [null]. *)
Definition pointHighlighted (st : State) (i : nat) : bool :=
  match nth_error (currentVocab st) i, highlightedWord st with
  | Some word, Some active => String.eqb word active
  | _, _ => false
  end
  || existsb (Nat.eqb i) (nearestIndexes st).

(** The lines to the nearest neighbours (lines 285-309), as pairs of
    coordinate indices; [coordCount] is the length of [coords3d].  The empty
    string is falsy, so no line is drawn for it. *)
Definition neighbourLines (st : State) (coordCount : nat) : list (nat * nat) :=
  match highlightedWord st with
  | None => []
  | Some active =>
      if JS.falsy active then []
      else
        flat_map
          (fun neighborIdx =>
             match JS.indexOf (currentVocab st) active with
             | Some highlightedIndex =>
                 if (highlightedIndex <? coordCount) && (neighborIdx <? coordCount)
                 then [(highlightedIndex, neighborIdx)]
                 else []
             | None => []
             end)
          (nearestIndexes st)
  end.

(** ** The hook that loads the initial embeddings *)

Module UseEmbeddings.

(** One run of the effect of [src/hooks/useEmbeddings.ts]: its [mounted]
    variable, and whether its promise chain is still pending. *)
Record Chain := { mounted : bool; pending : bool }.

(** The hook between events: the [embeddings] cell ([None] is [null]) and
    the runs of the effect so far, oldest first. *)
Record Hook := {
  embeddings : option (list (list JS.number));
  chains : list Chain
}.

Definition initial : Hook := {| embeddings := None; chains := [] |}.

(** The cleanup [() => { mounted = false; }] of the latest run. *)
Definition cleanup (runs : list Chain) : list Chain :=
  match rev runs with
  | [] => []
  | latest :: earlier =>
      rev earlier ++ [{| mounted := false; pending := pending latest |}]
  end.

(** [chains[i]] replaced by [f chains[i]]. *)
Fixpoint update (runs : list Chain) (i : nat) (f : Chain -> Chain) : list Chain :=
  match runs, i with
  | [], _ => []
  | c :: rest, O => f c :: rest
  | c :: rest, S j => c :: update rest j f
  end.

Inductive Event :=
| EffectRuns
| Unmounted
| Fulfilled (run : nat) (array : list (list JS.number))
| Rejected (run : nat).

(** The effect runs on mount and when [words] changes, after the cleanup of
    the previous run; unmounting runs the cleanup; a chain settles once,
    and its last [then] writes the cell only [if (mounted)]. *)
Definition step (h : Hook) (ev : Event) : Hook :=
  match ev with
  | EffectRuns =>
      {| embeddings := embeddings h;
         chains := cleanup (chains h) ++ [{| mounted := true; pending := true |}] |}
  | Unmounted =>
      {| embeddings := embeddings h; chains := cleanup (chains h) |}
  | Fulfilled i array =>
      match nth_error (chains h) i with
      | Some c =>
          if pending c
          then {| embeddings := if mounted c then Some array else embeddings h;
                  chains := update (chains h) i
                              (fun c => {| mounted := mounted c; pending := false |}) |}
          else h
      | None => h
      end
  | Rejected i =>
      {| embeddings := embeddings h;
         chains := update (chains h) i
                     (fun c => {| mounted := mounted c; pending := false |}) |}
  end.

Definition run (h : Hook) (trace : list Event) : Hook := fold_left step trace h.

(** What [Page] shows (the page component that calls the hook): the loading
    text while the hook returns [null], the scene mounted with the words and
    the embeddings otherwise. *)
Inductive View :=
| LoadingEmbeddings
| Scene (rt : Runtime).

Definition Page (words : list string) (h : Hook) : View :=
  match embeddings h with
  | None => LoadingEmbeddings
  | Some array => Scene (mount words array)
  end.

End UseEmbeddings.

(** * Vocabulary of the properties *)

(** ** binary64 *)

(** The least exponent of a binary64 mantissa. *)
Definition emin64 : Z := (-1074)%Z.

(** A number that is neither zero nor NaN and carries the sign [s]. *)
Definition signed (s : bool) (f : spec_float) : Prop :=
  match f with
  | S754_finite s' _ _ | S754_infinity s' => s' = s
  | _ => False
  end.

(** NaN or an infinity. *)
Definition nonfinite (f : spec_float) : Prop :=
  match f with
  | S754_nan | S754_infinity _ => True
  | _ => False
  end.

(** An order-preserving code of the numbers that are not NaN: [SFcompare]
    is the lexicographic comparison of the codes. *)
Definition code (f : spec_float) : Z * Z * Z :=
  match f with
  | S754_zero _ => (0, 0, 0)
  | S754_infinity true => (-2, 0, 0)
  | S754_infinity false => (2, 0, 0)
  | S754_nan => (3, 0, 0)
  | S754_finite true m e => (-1, - e, Zneg m)
  | S754_finite false m e => (1, e, Zpos m)
  end%Z.

Definition lex3 (a b : Z * Z * Z) : comparison :=
  let '(a1, a2, a3) := a in
  let '(b1, b2, b3) := b in
  match (a1 ?= b1)%Z with
  | Eq => match (a2 ?= b2)%Z with Eq => (a3 ?= b3)%Z | c => c end
  | c => c
  end.

Definition key (x : float) : Z * Z * Z := code (Prim2SF x).

(** ** Ranking *)

(** The Euclidean norm as [cosineDistance] computes it. *)
Definition norm (v : list JS.number) : JS.number :=
  sqrt (JS.reduce (fun acc val _ => acc + val * val)%float v 0%float).

(** The distance from the stored vector at index [i] to the query. *)
Definition distanceTo (store : list (list JS.number)) (query : list JS.number)
           (i : nat) : JS.number :=
  cosineDistance (nth i store []) query.

(** [x] ranks before [y]: nearer, or as near and earlier in the store. *)
Definition itemBefore (x y : Item) : Prop :=
  (distance x <? distance y)%float = true \/
  (distance x =? distance y)%float = true /\ index x < index y.

Definition ranksBefore (store : list (list JS.number)) (query : list JS.number)
           (i j : nat) : Prop :=
  (distanceTo store query i <? distanceTo store query j)%float = true \/
  (distanceTo store query i =? distanceTo store query j)%float = true /\ i < j.

(** The record [findNearestNeighbors] builds for a distance. *)
Definition mkItem (d : JS.number) (i : nat) : Item :=
  {| index := i; distance := d |}.

(** The array [findNearestNeighbors] has after [sort], before [slice]. *)
Definition sortedItems (store : list (list JS.number)) (query : list JS.number)
  : list Item :=
  JS.sort byDistance
    (JS.mapi mkItem (map (fun e => cosineDistance e query) store)).

(** ** Stores and words used in the examples *)

(** Two words whose vectors point the same way. *)
Definition parallelStore : list (list JS.number) := [[1; 0]; [2; 0]]%float.

(** The scenario of the specification, with exactly representable
    components: cat, dog, fish. *)
Definition scenarioStore : list (list JS.number) :=
  [[1; 0; 0]; [0.875; 0.125; 0]; [0; 1; 0]]%float.

(** A zero vector between two finite candidates, the second of them the
    nearest. *)
Definition unsortedStore : list (list JS.number) :=
  [[1; 0]; [0; 1]; [0; 0]; [1; 1]]%float.

(** A zero vector between two copies of the query. *)
Definition zeroBetweenStore : list (list JS.number) :=
  [[1; 0]; [0; 0]; [1; 0]]%float.

(** The state after the props arrived and the encoder was loaded. *)
Definition loadedState (vocab : list string) (embeddings : list (list JS.number))
           (encoder : Encoder) : State :=
  setModel (Some encoder) (initialState vocab embeddings).

(** Encoders for the examples: each answers every word with one vector. *)
Definition planeEncoder : Encoder := fun _ => Some [1; 0]%float.
Definition westEncoder : Encoder := fun _ => Some [-1; 0]%float.

(** Stand-ins for [Math.sin] and [Math.cos] where an example needs actual
    functions: the first terms of their series. *)
Definition sinSeries (x : JS.number) : JS.number := x.
Definition cosSeries (x : JS.number) : JS.number := (1 - x * x / 2)%float.

(** A word of a-z only. *)
Definition isLower (c : ascii) : bool := JS.in_range 97 122 c.

Fixpoint all_lower (s : string) : bool :=
  match s with
  | EmptyString => true
  | String c rest => isLower c && all_lower rest
  end.

(** [after] holds everything [before] holds, at the same indices, and
    possibly more words with their vectors behind. *)
Definition extends (before after : State) : Prop :=
  exists words vectors,
    List.length words = List.length vectors /\
    currentVocab after = currentVocab before ++ words /\
    currentEmbeddings after = currentEmbeddings before ++ vectors.

(** Three words in the plane, and the scene after "sun" was clicked. *)
Definition skyState : State :=
  loadedState ["sun"; "moon"; "star"]%string [[1; 0]; [0; 1]; [1; 1]]%float
    westEncoder.

Definition sunSelected : State := onSelect "sun" skyState.

(** At most one [use.load()] is pending, and while one is, the loading flag
    is set. *)
Definition loadGuarded (rt : Runtime) : Prop :=
  pendingLoads rt <= 1 /\
  (pendingLoads rt = 1 -> isModelLoading (cells rt) = true).

(** A load is pending and the last render has shown the loading flag. *)
Definition awaitingLoad (rt : Runtime) : Prop :=
  pendingLoads rt = 1 /\
  effectDeps rt = Some (false, true) /\
  hasModel (cells rt) = false.

(** [n] times: the pending load rejects, and the component renders until
    nothing changes any more. *)
Definition rejections (n : nat) : list Event :=
  List.concat (repeat [LoadRejected; Render; Render] n).

(** The character value in the words of the specification:
    [ord(word[i mod wordLength]) - ord('a') + 1]. *)
Definition specCharValue (word : string) (i : nat) : JS.number :=
  JS.number_of_Z
    (JS.charCode (nth (i mod String.length word) (list_ascii_of_string word) "a"%char)
     - JS.charCode "a" + 1).

(** A string of WhiteSpace and LineTerminator code units only. *)
Fixpoint all_white (s : string) : bool :=
  match s with
  | EmptyString => true
  | String c rest => JS.isWhiteSpace c && all_white rest
  end.

(** The vector that a click on "Add" appends for the current input, if it
    appends one: the encoder's answer when a model is loaded, the fallback
    vector otherwise. *)
Definition acceptedVector (Math_sin Math_cos : JS.number -> JS.number)
           (st : State) : option (list JS.number) :=
  if JS.test_only_letters (inputValue st)
  then match model st with
       | Some encoder => encoder (JS.toLowerCase (inputValue st))
       | None => Some (simpleEmbedding Math_sin Math_cos (inputValue st))
       end
  else None.

(** The vocabulary, the embeddings, the input box and the highlight are
    the same in both states. *)
Definition sameScene (a b : State) : Prop :=
  currentVocab a = currentVocab b /\
  currentEmbeddings a = currentEmbeddings b /\
  inputValue a = inputValue b /\
  isInputVisible a = isInputVisible b /\
  highlightedWord a = highlightedWord b /\
  nearestIndexes a = nearestIndexes b /\
  model a = model b.

(** An encoder that fails on everything but words of a-z. *)
Definition lowercaseEncoder : Encoder :=
  fun u => if all_lower u then Some [1; 0]%float else None.

(** The sum of products that [cosineDistance] reduces to, started at index
    [i] with accumulator [acc]. *)
Definition dotFrom (b : list JS.number) (a : list JS.number) (i : nat)
           (acc : JS.number) : JS.number :=
  JS.reduce_from (fun acc val i => acc + val * JS.at_index b i)%float a i acc.

(** The neighbour list names at most five stored vectors, none twice. *)
Definition neighboursValid (st : State) : Prop :=
  List.length (nearestIndexes st) <= 5 /\
  NoDup (nearestIndexes st) /\
  Forall (fun i => i < List.length (currentEmbeddings st)) (nearestIndexes st).

(** Without a highlighted word there are no neighbours. *)
Definition idleIsClear (st : State) : Prop :=
  highlightedWord st = None -> nearestIndexes st = [].

(** Once the model is there, no load is pending. *)
Definition loadedIsQuiet (rt : Runtime) : Prop :=
  loadGuarded rt /\ (hasModel (cells rt) = true -> pendingLoads rt = 0).

(** Only the latest run of the hook's effect can still be mounted. *)
Definition onlyLatestMounted (runs : list UseEmbeddings.Chain) : Prop :=
  forall i c,
    nth_error runs i = Some c -> UseEmbeddings.mounted c = true ->
    S i = List.length runs.

Definition isFulfilled (ev : UseEmbeddings.Event) : bool :=
  match ev with
  | UseEmbeddings.Fulfilled _ _ => true
  | _ => false
  end.

(** The store holds vectors of two lengths. *)
Definition twoLengths (store : list (list JS.number)) : Prop :=
  exists e1 e2,
    In e1 store /\ In e2 store /\ List.length e1 <> List.length e2.

(** The comparator of [findNearestNeighbors] orders no two stored vectors:
    of any two of their distances to the query one is NaN, or the two are
    equal.  Every comparison then reads as "equal", and the comparator is
    consistent. *)
Definition unordered (store : list (list JS.number)) (query : list JS.number)
  : Prop :=
  forall e e', In e store -> In e' store ->
    is_nan (cosineDistance e query) = true \/
    is_nan (cosineDistance e' query) = true \/
    (cosineDistance e query =? cosineDistance e' query)%float = true.

(** [word] is stored at index [idx] and at no index before it. *)
Definition firstAt (vocab : list string) (word : string) (idx : nat) : Prop :=
  nth_error vocab idx = Some word /\
  forall j, j < idx -> nth_error vocab j <> Some word.

(** "star" was added behind a zero vector and is highlighted; the store is
    [unsortedStore]. *)
Definition diagonalEncoder : Encoder := fun _ => Some [1; 1]%float.

Definition starAdded : State :=
  addWord "star"
    (loadedState ["sun"; "moon"; "void"]%string [[1; 0]; [0; 1]; [0; 0]]%float
       diagonalEncoder).

(** "cat" and "Cat" with the same vector, "cat" selected. *)
Definition catSelected : State :=
  onSelect "cat" (initialState ["cat"; "Cat"]%string [[1; 0]; [1; 0]]%float).

(** * Properties *)

(** ** binary64 arithmetic and order *)

Module Binary64.
Local Open Scope Z_scope.

Lemma digits2_pos_bounds m :
  2 ^ (Zpos (digits2_pos m) - 1) <= Zpos m < 2 ^ Zpos (digits2_pos m).
Proof.
  induction m as [p IH | p IH | ]; cbn [digits2_pos].
  - rewrite Pos2Z.inj_succ.
    replace (Z.succ (Zpos (digits2_pos p)) - 1) with (Z.succ (Zpos (digits2_pos p) - 1)) by lia.
    rewrite !Z.pow_succ_r by lia. lia.
  - rewrite Pos2Z.inj_succ.
    replace (Z.succ (Zpos (digits2_pos p)) - 1) with (Z.succ (Zpos (digits2_pos p) - 1)) by lia.
    rewrite !Z.pow_succ_r by lia. lia.
  - cbn. lia.
Qed.

Lemma shr_1_div2 r : 0 <= shr_m r -> shr_m (shr_1 r) = shr_m r / 2.
Proof.
  rewrite <- Z.div2_div.
  destruct r as [m b s]; cbn [shr_m]; intros Hm.
  destruct m as [ | [p | p | ] | p ]; try reflexivity; lia.
Qed.

Lemma iter_shr_1_div p : forall r,
  0 <= shr_m r -> shr_m (iter_pos shr_1 p r) = shr_m r / 2 ^ Zpos p.
Proof.
  induction p as [p IH | p IH | ]; intros r Hr; cbn [iter_pos].
  - assert (H1 : 0 <= shr_m (shr_1 r)) by (rewrite shr_1_div2 by easy; apply Z.div_pos; lia).
    assert (H2 : 0 <= shr_m (iter_pos shr_1 p (shr_1 r))).
    { rewrite IH by easy. apply Z.div_pos; lia. }
    rewrite IH by easy. rewrite IH by easy. rewrite shr_1_div2 by easy.
    rewrite !Z.div_div by lia. f_equal.
    replace (Zpos p~1) with (1 + Zpos p + Zpos p) by lia.
    rewrite !Z.pow_add_r by lia. change (2 ^ 1) with 2. ring.
  - assert (H2 : 0 <= shr_m (iter_pos shr_1 p r)).
    { rewrite IH by easy. apply Z.div_pos; lia. }
    rewrite IH by easy. rewrite IH by easy.
    rewrite !Z.div_div by lia. f_equal.
    replace (Zpos p~0) with (Zpos p + Zpos p) by lia.
    rewrite !Z.pow_add_r by lia. change (2 ^ 1) with 2. ring.
  - rewrite shr_1_div2 by easy. reflexivity.
Qed.


Lemma shr_fexp_pos m e l :
  0 < m -> emin64 <= e ->
  0 < shr_m (fst (shr_fexp prec emax m e l)) /\
  emin64 <= snd (shr_fexp prec emax m e l).
Proof.
  intros Hm He. unfold shr_fexp, shr.
  assert (Hrec : shr_m (shr_record_of_loc m l) = m) by (destruct l as [ | [ | | ]]; reflexivity).
  destruct m as [ | mp | mp ]; try lia.
  pose proof (digits2_pos_bounds mp) as Hd.
  cbn [Zdigits2].
  unfold fexp, SpecFloat.emin, prec, emax, emin64 in *.
  destruct (Z.max (Zpos (digits2_pos mp) + e - 53) (3 - 1024 - 53) - e) as [ | n | n ] eqn:Hn;
    cbn [fst snd]; rewrite ?Hrec; try lia.
  rewrite iter_shr_1_div by (rewrite Hrec; lia). rewrite Hrec.
  split; [ | lia ].
  apply Z.div_str_pos. split; [ lia | ].
  apply Z.le_trans with (2 ^ (Zpos (digits2_pos mp) - 1)); [ | lia ].
  apply Z.pow_le_mono_r; lia.
Qed.

Lemma round_nearest_even_ge mx lx : mx <= round_nearest_even mx lx.
Proof.
  destruct lx as [ | [ | | ]]; cbn; try lia. destruct (Z.even mx); lia.
Qed.


Lemma binary_round_aux_signed s m e l :
  0 < m -> emin64 <= e -> signed s (binary_round_aux prec emax s m e l).
Proof.
  intros Hm He. unfold binary_round_aux.
  destruct (shr_fexp_pos m e l Hm He) as [H1 H2].
  destruct (shr_fexp prec emax m e l) as [mrs' e']. cbn [fst snd] in *.
  assert (Hr : 0 < round_nearest_even (shr_m mrs') (loc_of_shr_record mrs')).
  { pose proof (round_nearest_even_ge (shr_m mrs') (loc_of_shr_record mrs')). lia. }
  destruct (shr_fexp_pos _ e' loc_Exact Hr H2) as [H3 H4].
  destruct (shr_fexp prec emax _ e' loc_Exact) as [mrs'' e'']. cbn [fst snd] in *.
  destruct (shr_m mrs'') as [ | q | q ]; try lia.
  destruct (e'' <=? emax - prec); reflexivity.
Qed.

Lemma binary_round_signed s m e :
  emin64 <= e -> signed s (binary_round prec emax s m e).
Proof.
  intros He. unfold binary_round.
  destruct (shl_align m e (fexp prec emax (Zpos (digits2_pos m) + e))) as [mz ez] eqn:Hal.
  apply binary_round_aux_signed; [ lia | ].
  unfold shl_align in Hal.
  destruct (fexp prec emax (Zpos (digits2_pos m) + e) - e) eqn:Hd;
    inversion Hal; subst; try assumption.
  unfold fexp, SpecFloat.emin, prec, emax, emin64 in *. lia.
Qed.

Lemma iter_xO_mul m d : Zpos (Pos.iter xO m d) = Zpos m * 2 ^ Zpos d.
Proof.
  induction d as [ | d IH ] using Pos.peano_ind.
  - cbn. lia.
  - rewrite Pos.iter_succ, Pos2Z.inj_succ, Z.pow_succ_r by lia.
    rewrite Pos2Z.inj_xO, IH. ring.
Qed.

Lemma shl_align_value m e ez :
  ez <= e -> Zpos (fst (shl_align m e ez)) = Zpos m * 2 ^ (e - ez).
Proof.
  intros Hle. unfold shl_align.
  destruct (ez - e) as [ | d | d ] eqn:Hd; cbn [fst]; try lia.
  - replace (e - ez) with 0 by lia. cbn. lia.
  - replace (e - ez) with (Zpos d) by lia. apply iter_xO_mul.
Qed.

Lemma bounded_shape m e :
  bounded prec emax m e = true ->
  Zpos (digits2_pos m) <= 53 /\ emin64 <= e /\
  (Zpos (digits2_pos m) = 53 \/ e = emin64).
Proof.
  unfold bounded, canonical_mantissa, fexp, SpecFloat.emin, prec, emax, emin64.
  intros H. apply andb_prop in H. destruct H as [H _].
  apply Z.eqb_eq in H. lia.
Qed.

(** On canonical mantissas the exponent-then-mantissa comparison of
    [SFcompare] is the comparison of the values. *)
Lemma aligned_compare mx ex my ey ez :
  bounded prec emax mx ex = true -> bounded prec emax my ey = true ->
  ez <= ex -> ez <= ey ->
  (Zpos mx * 2 ^ (ex - ez) ?= Zpos my * 2 ^ (ey - ez)) =
  match ex ?= ey with
  | Lt => Lt
  | Gt => Gt
  | Eq => Pos.compare_cont Eq mx my
  end.
Proof.
  intros Hx Hy Hzx Hzy.
  apply bounded_shape in Hx, Hy.
  pose proof (digits2_pos_bounds mx) as Bx.
  pose proof (digits2_pos_bounds my) as By.
  assert (Hlt : forall m1 e1 m2 e2,
             Zpos (digits2_pos m1) <= 53 -> Zpos (digits2_pos m2) = 53 ->
             ez <= e1 -> e1 < e2 ->
             Zpos m1 * 2 ^ (e1 - ez) < Zpos m2 * 2 ^ (e2 - ez)).
  { intros m1 e1 m2 e2 D1 D2 Z1 L.
    pose proof (digits2_pos_bounds m1) as B1.
    pose proof (digits2_pos_bounds m2) as B2.
    rewrite D2 in B2. change (2 ^ (53 - 1)) with 4503599627370496 in B2.
    assert (Zpos m1 < 9007199254740992).
    { apply Z.lt_le_trans with (2 ^ Zpos (digits2_pos m1)); [ lia | ].
      change 9007199254740992 with (2 ^ 53). apply Z.pow_le_mono_r; lia. }
    replace (e2 - ez) with ((e2 - e1 - 1) + 1 + (e1 - ez)) by lia.
    rewrite !Z.pow_add_r by lia. change (2 ^ 1) with 2.
    assert (0 < 2 ^ (e1 - ez)) by (apply Z.pow_pos_nonneg; lia).
    assert (0 < 2 ^ (e2 - e1 - 1)) by (apply Z.pow_pos_nonneg; lia).
    generalize dependent (2 ^ (e1 - ez)). generalize dependent (2 ^ (e2 - e1 - 1)).
    intros c Hc a Ha.
    apply Z.lt_le_trans with (9007199254740992 * a); [ nia | ].
    apply Z.le_trans with (Zpos m2 * (1 * 2 * a)); nia. }
  destruct (Z.compare_spec ex ey) as [Heq | Hl | Hg].
  - subst ey. change (Pos.compare_cont Eq mx my) with (Zpos mx ?= Zpos my).
    assert (0 < 2 ^ (ex - ez)) by (apply Z.pow_pos_nonneg; lia).
    destruct (Z.compare_spec (Zpos mx) (Zpos my)) as [E | L | G].
    + rewrite E. apply Z.compare_refl.
    + apply Z.compare_lt_iff. nia.
    + apply Z.compare_gt_iff. nia.
  - apply Z.compare_lt_iff. apply Hlt; unfold emin64 in *; lia.
  - apply Z.compare_gt_iff. apply Hlt; unfold emin64 in *; lia.
Qed.

Lemma SFltb_zero_signed s f :
  signed s f -> SFltb (S754_zero false) f = negb s.
Proof.
  destruct f as [ z | i | | s' m e ]; cbn; intros H; try contradiction;
    subst; destruct s; reflexivity.
Qed.

Lemma binary_normalize_positive d e :
  emin64 <= e ->
  SFltb (S754_zero false) (binary_normalize prec emax d e false) = (0 <? d).
Proof.
  intros He. destruct d as [ | p | p ]; cbn [binary_normalize].
  - reflexivity.
  - apply (SFltb_zero_signed false). now apply binary_round_signed.
  - apply (SFltb_zero_signed true). now apply binary_round_signed.
Qed.

Lemma ltb_of_compare a b :
  (0 <? a - b) = match b ?= a with Lt => true | _ => false end.
Proof.
  destruct (Z.compare_spec b a); [ apply Z.ltb_ge | apply Z.ltb_lt | apply Z.ltb_ge ]; lia.
Qed.

Lemma SFsub_positive x y :
  valid_binary x = true -> valid_binary y = true ->
  x <> S754_nan -> y <> S754_nan ->
  SFltb (S754_zero false) (SF64sub x y) = SFltb y x.
Proof.
  intros Vx Vy Nx Ny.
  destruct x as [ sx | sx | | sx mx ex ]; try congruence;
    destruct y as [ sy | sy | | sy my ey ]; try congruence;
    try (destruct sx; destruct sy; reflexivity).
  cbn [valid_binary] in Vx, Vy.
  pose proof (bounded_shape _ _ Vx) as Sx. pose proof (bounded_shape _ _ Vy) as Sy.
  unfold SF64sub, SFsub.
  rewrite binary_normalize_positive by lia.
  rewrite !shl_align_value by lia.
  pose proof (aligned_compare my ey mx ex (Z.min ex ey) Vy Vx ltac:(lia) ltac:(lia)) as Hyx.
  pose proof (aligned_compare mx ex my ey (Z.min ex ey) Vx Vy ltac:(lia) ltac:(lia)) as Hxy.
  assert (Px : 0 < Zpos mx * 2 ^ (ex - Z.min ex ey)).
  { apply Z.mul_pos_pos; [ lia | apply Z.pow_pos_nonneg; lia ]. }
  assert (Py : 0 < Zpos my * 2 ^ (ey - Z.min ex ey)).
  { apply Z.mul_pos_pos; [ lia | apply Z.pow_pos_nonneg; lia ]. }
  unfold SFltb, SFcompare.
  destruct sx, sy; cbn [cond_Zopp].
  - replace (- (Zpos mx * 2 ^ (ex - Z.min ex ey)) - - (Zpos my * 2 ^ (ey - Z.min ex ey)))
      with (Zpos my * 2 ^ (ey - Z.min ex ey) - Zpos mx * 2 ^ (ex - Z.min ex ey)) by ring.
    rewrite ltb_of_compare, Hxy.
    rewrite (Z.compare_antisym ex ey).
    destruct (ex ?= ey); cbn [CompOpp]; try reflexivity.
    rewrite (ZC4 my mx). destruct (Pos.compare_cont Eq mx my); reflexivity.
  - apply Z.ltb_ge. lia.
  - apply Z.ltb_lt. lia.
  - rewrite ltb_of_compare, Hyx. destruct (ey ?= ex); reflexivity.
Qed.

Local Open Scope float_scope.

Lemma is_nan_spec x : is_nan x = false -> Prim2SF x <> S754_nan.
Proof.
  unfold is_nan. rewrite eqb_spec. intros H E. rewrite E in H. discriminate.
Qed.

(** The sign of a difference of two numbers is their order, as long as
    neither is NaN. *)
Theorem sub_positive x y :
  is_nan x = false -> is_nan y = false ->
  (0 <? x - y) = (y <? x).
Proof.
  intros Hx Hy. rewrite !ltb_spec, sub_spec.
  change (Prim2SF 0) with (S754_zero false).
  apply SFsub_positive; auto using Prim2SF_valid, is_nan_spec.
Qed.

Local Open Scope Z_scope.

(** *** The order of [SFcompare] *)

Lemma SFcompare_code x y :
  x <> S754_nan -> y <> S754_nan ->
  SFcompare x y = Some (lex3 (code x) (code y)).
Proof.
  intros Nx Ny.
  destruct x as [ sx | sx | | sx mx ex ]; try congruence;
    destruct y as [ sy | sy | | sy my ey ]; try congruence;
    try (destruct sx; destruct sy; reflexivity).
  destruct sx, sy; cbn [SFcompare code lex3]; try reflexivity.
  rewrite Z.compare_opp. rewrite (Z.compare_antisym ex ey).
  destruct (ex ?= ey); reflexivity.
Qed.

Lemma lex3_Lt a b :
  lex3 a b = Lt <->
  fst (fst a) < fst (fst b) \/
  fst (fst a) = fst (fst b) /\
  (snd (fst a) < snd (fst b) \/ snd (fst a) = snd (fst b) /\ snd a < snd b).
Proof.
  destruct a as [[a1 a2] a3], b as [[b1 b2] b3]. cbn [lex3 fst snd].
  destruct (Z.compare_spec a1 b1); destruct (Z.compare_spec a2 b2);
    destruct (Z.compare_spec a3 b3); split; intros; try discriminate; try lia; reflexivity.
Qed.

Lemma lex3_Eq a b : lex3 a b = Eq <-> a = b.
Proof.
  destruct a as [[a1 a2] a3], b as [[b1 b2] b3]. cbn [lex3].
  destruct (Z.compare_spec a1 b1); destruct (Z.compare_spec a2 b2);
    destruct (Z.compare_spec a3 b3); split; intros H'; try discriminate;
    try (inversion H'; lia); subst; reflexivity.
Qed.

Lemma lex3_Gt a b : lex3 a b = Gt <-> lex3 b a = Lt.
Proof.
  rewrite lex3_Lt.
  destruct a as [[a1 a2] a3], b as [[b1 b2] b3]. cbn [lex3 fst snd].
  destruct (Z.compare_spec a1 b1); destruct (Z.compare_spec a2 b2);
    destruct (Z.compare_spec a3 b3); split; intros; try discriminate; try lia; reflexivity.
Qed.

Local Open Scope float_scope.

Lemma SFcompare_nan_l y : SFcompare S754_nan y = None.
Proof. reflexivity. Qed.

Lemma SFcompare_nan_r x : SFcompare x S754_nan = None.
Proof. destruct x; reflexivity. Qed.

Lemma is_nan_false x : is_nan x = false <-> Prim2SF x <> S754_nan.
Proof.
  unfold is_nan. rewrite eqb_spec. unfold SFeqb. split.
  - intros H E. rewrite E in H. discriminate.
  - intros N. rewrite SFcompare_code by assumption.
    replace (lex3 (code (Prim2SF x)) (code (Prim2SF x))) with Eq; [ reflexivity | ].
    symmetry. now apply lex3_Eq.
Qed.

Lemma is_nan_true x : is_nan x = true <-> Prim2SF x = S754_nan.
Proof.
  split.
  - intros H. destruct (Prim2SF x) eqn:E; try reflexivity;
      assert (N : Prim2SF x <> S754_nan) by (rewrite E; discriminate);
      apply is_nan_false in N; congruence.
  - intros E. destruct (is_nan x) eqn:H; [ reflexivity | ].
    apply is_nan_false in H. contradiction.
Qed.

Lemma compare_key x y :
  is_nan x = false -> is_nan y = false ->
  SFcompare (Prim2SF x) (Prim2SF y) = Some (lex3 (key x) (key y)).
Proof.
  intros Hx Hy. apply SFcompare_code; now apply is_nan_false.
Qed.

Lemma compare_some x y c :
  SFcompare (Prim2SF x) (Prim2SF y) = Some c ->
  is_nan x = false /\ is_nan y = false.
Proof.
  intros H. split; apply is_nan_false; intros E; rewrite E in H.
  - rewrite SFcompare_nan_l in H. discriminate.
  - rewrite SFcompare_nan_r in H. discriminate.
Qed.

Lemma ltb_key x y :
  (x <? y) = true <->
  is_nan x = false /\ is_nan y = false /\ lex3 (key x) (key y) = Lt.
Proof.
  rewrite ltb_spec. unfold SFltb. split.
  - destruct (SFcompare (Prim2SF x) (Prim2SF y)) as [ c | ] eqn:E; [ | discriminate ].
    destruct (compare_some _ _ _ E) as [Hx Hy].
    rewrite compare_key in E by assumption.
    destruct c; try discriminate. intros _. repeat split; congruence.
  - intros (Hx & Hy & L). rewrite compare_key, L by assumption. reflexivity.
Qed.

Lemma eqb_key x y :
  (x =? y) = true <->
  is_nan x = false /\ is_nan y = false /\ key x = key y.
Proof.
  rewrite eqb_spec. unfold SFeqb. rewrite <- lex3_Eq. split.
  - destruct (SFcompare (Prim2SF x) (Prim2SF y)) as [ c | ] eqn:E; [ | discriminate ].
    destruct (compare_some _ _ _ E) as [Hx Hy].
    rewrite compare_key in E by assumption.
    destruct c; try discriminate. intros _. repeat split; congruence.
  - intros (Hx & Hy & L). rewrite compare_key, L by assumption. reflexivity.
Qed.

(** Two numbers that are not NaN are ordered one way or the other. *)
Lemma not_ltb_cases x y :
  is_nan x = false -> is_nan y = false ->
  (y <? x) = false -> (x <? y) = true \/ (x =? y) = true.
Proof.
  intros Hx Hy H.
  destruct (lex3 (key x) (key y)) eqn:E.
  - right. apply eqb_key. repeat split; try assumption. now apply lex3_Eq.
  - left. apply ltb_key. now repeat split.
  - apply lex3_Gt in E.
    assert (T : (y <? x) = true) by (apply ltb_key; now repeat split).
    congruence.
Qed.

Lemma ltb_trans x y z : (x <? y) = true -> (y <? z) = true -> (x <? z) = true.
Proof.
  rewrite !ltb_key, !lex3_Lt. intros (Hx & Hy & L1) (_ & Hz & L2).
  repeat split; try assumption. lia.
Qed.

Lemma ltb_eqb_trans x y z : (x <? y) = true -> (y =? z) = true -> (x <? z) = true.
Proof.
  rewrite !ltb_key, eqb_key. intros (Hx & Hy & L1) (_ & Hz & E).
  repeat split; try assumption. congruence.
Qed.

Lemma eqb_ltb_trans x y z : (x =? y) = true -> (y <? z) = true -> (x <? z) = true.
Proof.
  rewrite !ltb_key, eqb_key. intros (Hx & Hy & E) (_ & Hz & L).
  repeat split; try assumption. congruence.
Qed.

Lemma eqb_trans x y z : (x =? y) = true -> (y =? z) = true -> (x =? z) = true.
Proof.
  rewrite !eqb_key. intros (Hx & Hy & E1) (_ & Hz & E2).
  repeat split; try assumption. congruence.
Qed.

(** A difference with a NaN operand is not positive. *)
Lemma sub_nan_not_positive x y :
  is_nan x = true \/ is_nan y = true -> (0 <? x - y) = false.
Proof.
  intros H. rewrite ltb_spec, sub_spec. unfold SF64sub.
  destruct H as [H | H]; apply is_nan_true in H; rewrite H.
  - reflexivity.
  - destruct (Prim2SF x); reflexivity.
Qed.
Lemma eqb_zero x : (x =? 0) = true -> exists s, Prim2SF x = S754_zero s.
Proof.
  intros H. apply eqb_key in H. destruct H as (_ & _ & K).
  unfold key in K. change (Prim2SF 0) with (S754_zero false) in K.
  destruct (Prim2SF x) as [ s | [ | ] | | [ | ] m e ]; try discriminate K.
  now exists s.
Qed.

Lemma is_finite_nonfinite x : nonfinite (Prim2SF x) -> is_finite x = false.
Proof.
  unfold is_finite. intros H.
  destruct (Prim2SF x) as [ s | s | | s m e ] eqn:E; try contradiction.
  - assert (I : is_infinity x = true).
    { unfold is_infinity. rewrite eqb_spec, abs_spec, E. reflexivity. }
    rewrite I, orb_true_r. reflexivity.
  - apply is_nan_true in E. rewrite E. reflexivity.
Qed.

(** With a zero norm on either side the quotient of [cosineDistance] has a
    zero or NaN divisor, and the distance is NaN or an infinity. *)
Lemma zero_norm_quotient dot na nb :
  (na =? 0) = true \/ (nb =? 0) = true ->
  is_finite (1 - dot / (na * nb)) = false.
Proof.
  intros H. apply is_finite_nonfinite.
  rewrite sub_spec, div_spec, mul_spec.
  change (Prim2SF 1) with (S754_finite false 4503599627370496 (-52)).
  assert (D : match SF64mul (Prim2SF na) (Prim2SF nb) with
              | S754_zero _ | S754_nan => True
              | _ => False
              end).
  { destruct H as [H | H]; apply eqb_zero in H; destruct H as [s H]; rewrite H;
      [ destruct (Prim2SF nb) | destruct (Prim2SF na) ]; exact I. }
  destruct (SF64mul (Prim2SF na) (Prim2SF nb)); try contradiction;
    destruct (Prim2SF dot) as [ sd | sd | | sd md ed ]; cbn; try exact I;
    destruct sd; try destruct s; exact I.
Qed.

End Binary64.

(** ** Arrays *)

Module ArrayFacts.

Lemma insert_perm {A : Type} (cmp : A -> A -> JS.number) x l :
  Permutation (JS.insert cmp x l) (x :: l).
Proof.
  induction l as [ | y t IH ]; cbn [JS.insert].
  - apply Permutation_refl.
  - destruct (JS.placed_after (cmp x y)).
    + apply perm_trans with (y :: x :: t); [ now apply perm_skip | apply perm_swap ].
    + apply Permutation_refl.
Qed.

Lemma sort_perm {A : Type} (cmp : A -> A -> JS.number) l :
  Permutation (JS.sort cmp l) l.
Proof.
  induction l as [ | x t IH ]; cbn [JS.sort fold_right].
  - apply perm_nil.
  - apply perm_trans with (x :: JS.sort cmp t);
      [ apply insert_perm | now apply perm_skip ].
Qed.

Lemma sort_length {A : Type} (cmp : A -> A -> JS.number) l :
  List.length (JS.sort cmp l) = List.length l.
Proof. apply Permutation_length, sort_perm. Qed.

(** The head of [insert x t] is [x] or the head of [t]. *)
Lemma insert_HdRel {A : Type} (R : A -> A -> Prop) cmp y x t :
  R y x -> HdRel R y t -> HdRel R y (JS.insert cmp x t).
Proof.
  intros Hx Ht. destruct t as [ | z t ]; cbn [JS.insert].
  - now constructor.
  - destruct (JS.placed_after (cmp x z)); constructor;
      [ now inversion Ht | assumption ].
Qed.

Lemma mapi_from_length {A B : Type} (f : A -> nat -> B) l i :
  List.length (JS.mapi_from f l i) = List.length l.
Proof.
  revert i. induction l as [ | x t IH ]; intros i; cbn; [ | rewrite IH ]; reflexivity.
Qed.

Lemma mapi_from_indices (ds : list JS.number) i :
  map index (JS.mapi_from mkItem ds i) = seq i (List.length ds).
Proof.
  revert i. induction ds as [ | d t IH ]; intros i; cbn; [ | rewrite IH ]; reflexivity.
Qed.

Lemma mapi_from_In (ds : list JS.number) i x :
  In x (JS.mapi_from mkItem ds i) ->
  i <= index x < i + List.length ds /\ distance x = nth (index x - i) ds nan.
Proof.
  revert i. induction ds as [ | d t IH ]; intros i; cbn [JS.mapi_from In].
  - contradiction.
  - intros [E | H].
    + subst x. cbn. rewrite Nat.sub_diag. split; [ lia | reflexivity ].
    + apply IH in H. destruct H as [B E]. cbn [List.length]. split; [ lia | ].
      rewrite E. replace (index x - i) with (S (index x - S i)) by lia. reflexivity.
Qed.

Lemma slice_firstn {A : Type} (l : list A) k :
  JS.slice l 1 (k + 1) = firstn k (tl l).
Proof.
  unfold JS.slice. replace (k + 1 - 1) with k by lia.
  destruct l; reflexivity.
Qed.

Lemma StronglySorted_firstn {A : Type} (R : A -> A -> Prop) l k :
  StronglySorted R l -> StronglySorted R (firstn k l).
Proof.
  intros H. revert k. induction H as [ | x t Ht IH Hx ]; intros k.
  - rewrite firstn_nil. constructor.
  - destruct k as [ | k ]; cbn [firstn]; constructor.
    + apply IH.
    + apply Forall_forall. intros y Hy.
      rewrite Forall_forall in Hx. apply Hx.
      rewrite <- (firstn_skipn k t). apply in_or_app. now left.
Qed.

Lemma StronglySorted_tl {A : Type} (R : A -> A -> Prop) l :
  StronglySorted R l -> StronglySorted R (tl l).
Proof.
  intros H. destruct H; [ constructor | assumption ].
Qed.

Lemma StronglySorted_map {A B : Type} (R : A -> A -> Prop) (R' : B -> B -> Prop)
      (f : A -> B) l :
  (forall x y, In x l -> In y l -> R x y -> R' (f x) (f y)) ->
  StronglySorted R l -> StronglySorted R' (map f l).
Proof.
  intros Hf H. induction H as [ | x t Ht IH Hx ]; cbn [map]; constructor.
  - apply IH. intros a b Ha Hb. apply Hf; now right.
  - apply Forall_forall. intros b Hb. apply in_map_iff in Hb.
    destruct Hb as (y & <- & Hy). rewrite Forall_forall in Hx.
    apply Hf; [ now left | now right | now apply Hx ].
Qed.

End ArrayFacts.

(** ** Ranking by distance *)

Module Ranking.
Import ArrayFacts.
Local Open Scope float_scope.

Lemma itemBefore_trans x y z :
  itemBefore x y -> itemBefore y z -> itemBefore x z.
Proof.
  unfold itemBefore. intros [L1 | [E1 I1]] [L2 | [E2 I2]].
  - left. eapply Binary64.ltb_trans; eassumption.
  - left. eapply Binary64.ltb_eqb_trans; eassumption.
  - left. eapply Binary64.eqb_ltb_trans; eassumption.
  - right. split; [ eapply Binary64.eqb_trans; eassumption | lia ].
Qed.

(** The comparator of line 82 on two distances that are not NaN. *)
Lemma byDistance_after x y :
  is_nan (distance x) = false -> is_nan (distance y) = false ->
  JS.placed_after (byDistance x y) = (distance y <? distance x).
Proof. intros Hx Hy. now apply Binary64.sub_positive. Qed.

Lemma insert_sorted x l :
  is_nan (distance x) = false ->
  Forall (fun y => is_nan (distance y) = false /\ (index x < index y)%nat) l ->
  Sorted itemBefore l ->
  Sorted itemBefore (JS.insert byDistance x l).
Proof.
  intros Hx Hl Hs. induction l as [ | y t IH ]; cbn [JS.insert].
  - repeat constructor.
  - inversion Hl as [ | ? ? [Hy Hi] Ht ]; subst.
    inversion Hs as [ | ? ? Hst Hhd ]; subst.
    rewrite byDistance_after by assumption.
    destruct (distance y <? distance x) eqn:C.
    + constructor; [ now apply IH | ].
      apply insert_HdRel; [ now left | assumption ].
    + constructor; [ assumption | constructor ].
      destruct (Binary64.not_ltb_cases _ _ Hx Hy C) as [L | E];
        [ now left | now right ].
Qed.

Lemma sort_items_sorted ds i :
  Forall (fun d => is_nan d = false) ds ->
  Sorted itemBefore (JS.sort byDistance (JS.mapi_from mkItem ds i)).
Proof.
  revert i. induction ds as [ | d t IH ]; intros i Hds.
  - constructor.
  - inversion Hds as [ | ? ? Hd Ht ]; subst.
    cbn [JS.mapi_from JS.sort fold_right].
    apply insert_sorted; [ exact Hd | | now apply IH ].
    apply Forall_forall. intros y Hy.
    apply (Permutation_in _ (sort_perm byDistance _)) in Hy.
    apply mapi_from_In in Hy. destruct Hy as [B E]. cbn [index mkItem].
    split; [ | lia ].
    rewrite E. rewrite Forall_forall in Ht. apply Ht. apply nth_In. lia.
Qed.

(** What [findNearestNeighbors] returns in every case: the indices in the
    order [sort] leaves them, without the first, cut to [k]. *)
Lemma findNearestNeighbors_unfold store query k :
  findNearestNeighbors store query k =
  firstn k (tl (map index (sortedItems store query))).
Proof.
  unfold findNearestNeighbors. rewrite slice_firstn.
  change (fun (d : JS.number) (i : nat) => {| index := i; distance := d |}) with mkItem.
  fold (sortedItems store query).
  rewrite <- firstn_map. f_equal. now destruct (sortedItems store query).
Qed.

Lemma sortedItems_indices store query :
  Permutation (map index (sortedItems store query)) (seq 0 (List.length store)).
Proof.
  unfold sortedItems, JS.mapi.
  eapply perm_trans; [ apply Permutation_map, sort_perm | ].
  rewrite mapi_from_indices, length_map. apply Permutation_refl.
Qed.

Lemma sortedItems_distance store query x :
  In x (sortedItems store query) ->
  distance x = distanceTo store query (index x).
Proof.
  intros H. apply (Permutation_in _ (sort_perm byDistance _)) in H.
  apply mapi_from_In in H. destruct H as [B E].
  rewrite length_map in B. rewrite E, Nat.sub_0_r.
  rewrite (nth_indep _ nan (cosineDistance [] query)) by (rewrite length_map; lia).
  unfold distanceTo.
  apply (map_nth (fun e => cosineDistance e query)).
Qed.

Lemma nearest_length store query k :
  List.length (findNearestNeighbors store query k) =
  Nat.min k (List.length store - 1).
Proof.
  rewrite findNearestNeighbors_unfold, length_firstn. f_equal.
  pose proof (Permutation_length (sortedItems_indices store query)) as L.
  rewrite length_seq in L.
  destruct (map index (sortedItems store query)); cbn in *; lia.
Qed.

End Ranking.

(** * The claims about similarity *)

Section SimilarityClaims.
Import ArrayFacts Ranking.
Local Open Scope float_scope.

(** The scenario of the specification: dog is nearer to cat than fish. *)
Example scenario_nearest :
  findNearestNeighbors scenarioStore [1; 0; 0] 2 = [1%nat; 2%nat].
Proof. vm_compute. reflexivity. Qed.

Example distance_to_itself : cosineDistance [3; 4] [3; 4] = 0.
Proof. vm_compute. reflexivity. Qed.

Example distance_to_shorter_query_is_nan :
  is_nan (cosineDistance [1; 0; 0] [1; 0]) = true.
Proof. vm_compute. reflexivity. Qed.

(** C1, at the failing input.  "cat" and "Cat" are different words for the
    component and get the same vector, because the encoder is given the
    lower-cased word.  Clicking "Cat", stored at index 1, highlights index 1
    itself as its only neighbour: the sort leaves index 0 first, and
    [slice(1, k + 1)] drops that one. *)
Theorem select_returns_own_index :
  JS.indexOf ["cat"; "Cat"]%string "Cat" = Some 1%nat /\
  nearestIndexes
    (onSelect "Cat" (initialState ["cat"; "Cat"]%string [[1; 0]; [1; 0]]))
  = [1%nat].
Proof. split; vm_compute; reflexivity. Qed.

(** The same on [findNearestNeighbors] alone, for two parallel vectors. *)
Lemma nearest_returns_query_index :
  findNearestNeighbors parallelStore (nth 1 parallelStore []) 5 = [1%nat].
Proof. vm_compute. reflexivity. Qed.

(** C2 as stated fails: with a zero vector in the store the distances are
    1, NaN and about 0.29 after the query's own 0; the comparator orders no
    pair that involves the NaN, the array stays in store order, and index 3
    is returned after index 1 although it is nearer. *)
Lemma nearest_unsorted_with_nan :
  findNearestNeighbors unsortedStore [1; 0] 5 = [1%nat; 2%nat; 3%nat] /\
  (distanceTo unsortedStore [1; 0] 3 <? distanceTo unsortedStore [1; 0] 1) = true /\
  is_nan (distanceTo unsortedStore [1; 0] 2) = true.
Proof. repeat split; vm_compute; reflexivity. Qed.

(** C2 (amended): when no distance from a stored vector to the query is NaN,
    [findNearestNeighbors] returns [min k (n - 1)] indices in non-decreasing
    distance with equal distances in ascending index: the ranking of all [n]
    indices without its first entry, cut to [k]. *)
Theorem nearest_ranked_when_comparable store query k :
  (forall e, In e store -> is_nan (cosineDistance e query) = false) ->
  List.length (findNearestNeighbors store query k)
  = Nat.min k (List.length store - 1) /\
  StronglySorted (ranksBefore store query) (findNearestNeighbors store query k) /\
  exists ranking,
    Permutation ranking (seq 0 (List.length store)) /\
    StronglySorted (ranksBefore store query) ranking /\
    findNearestNeighbors store query k = firstn k (tl ranking).
Proof.
  intros Hcmp.
  assert (Hs : StronglySorted (ranksBefore store query)
                 (map index (sortedItems store query))).
  { apply StronglySorted_map with (R := itemBefore).
    - intros x y Hx Hy. unfold itemBefore, ranksBefore.
      now rewrite (sortedItems_distance _ _ _ Hx), (sortedItems_distance _ _ _ Hy).
    - apply Sorted_StronglySorted; [ exact itemBefore_trans | ].
      apply sort_items_sorted. apply Forall_forall. intros d Hd.
      apply in_map_iff in Hd. destruct Hd as (e & <- & He). now apply Hcmp. }
  split; [ apply nearest_length | ].
  split.
  - rewrite findNearestNeighbors_unfold.
    now apply StronglySorted_firstn, StronglySorted_tl.
  - exists (map index (sortedItems store query)).
    split; [ apply sortedItems_indices | ].
    split; [ exact Hs | apply findNearestNeighbors_unfold ].
Qed.

Lemma nearest_ranked_scenario :
  (forall e, In e scenarioStore -> is_nan (cosineDistance e [1; 0; 0]) = false) /\
  List.length (findNearestNeighbors scenarioStore [1; 0; 0] 2)
  = Nat.min 2 (List.length scenarioStore - 1) /\
  StronglySorted (ranksBefore scenarioStore [1; 0; 0])
    (findNearestNeighbors scenarioStore [1; 0; 0] 2) /\
  exists ranking,
    Permutation ranking (seq 0 (List.length scenarioStore)) /\
    StronglySorted (ranksBefore scenarioStore [1; 0; 0]) ranking /\
    findNearestNeighbors scenarioStore [1; 0; 0] 2 = firstn 2 (tl ranking).
Proof.
  assert (H : forall e, In e scenarioStore ->
                        is_nan (cosineDistance e [1; 0; 0]) = false).
  { intros e [ <- | [ <- | [ <- | [] ]]]; vm_compute; reflexivity. }
  split; [ exact H | ].
  exact (nearest_ranked_when_comparable scenarioStore [1; 0; 0] 2 H).
Defined.

(** C7 as stated fails: the zero vector at index 1 has distance NaN, every
    comparison made by the comparator is "equal", the stable sort keeps the
    store order, and the zero-norm candidate is returned before the
    candidate at index 2, whose distance is the finite 0. *)
Lemma zero_norm_ranked_before_finite :
  (norm (nth 1 zeroBetweenStore []) =? 0) = true /\
  findNearestNeighbors zeroBetweenStore [1; 0] 5 = [1%nat; 2%nat] /\
  is_nan (distanceTo zeroBetweenStore [1; 0] 1) = true /\
  is_finite (distanceTo zeroBetweenStore [1; 0] 2) = true.
Proof. repeat split; vm_compute; reflexivity. Qed.

(** A norm can also be zero by underflow.  The quotient is then an
    infinity, the distance is minus infinity, and the candidate is ranked
    first: here before the query's own index 0, which is returned. *)
Lemma underflowed_norm_ranks_first :
  (norm [0x1p-600] =? 0) = true /\
  cosineDistance [0x1p-600] [0x1p+300] = neg_infinity /\
  findNearestNeighbors [[0x1p+300]; [0x1p-600]; [0x1p+301]] [0x1p+300] 5
  = [0%nat; 2%nat].
Proof. repeat split; vm_compute; reflexivity. Qed.

End SimilarityClaims.

(** * Validation *)

Module Validation.

Lemma letter_not_white c : JS.isLetter c = true -> JS.isWhiteSpace c = false.
Proof.
  destruct c as [[] [] [] [] [] [] [] []]; vm_compute; congruence.
Qed.

Lemma rev_string_letters s : forall acc,
  JS.all_letters s = true -> JS.all_letters acc = true ->
  JS.all_letters (JS.rev_string s acc) = true.
Proof.
  induction s as [ | c r IH ]; intros acc Hs Ha; cbn [JS.rev_string].
  - exact Ha.
  - cbn [JS.all_letters] in Hs. apply andb_prop in Hs. destruct Hs as [Hc Hr].
    apply IH; [ exact Hr | ]. cbn [JS.all_letters]. now rewrite Hc, Ha.
Qed.

Lemma rev_string_falsy s : forall acc,
  JS.falsy acc = false -> JS.falsy (JS.rev_string s acc) = false.
Proof.
  induction s as [ | c r IH ]; intros acc Ha; cbn [JS.rev_string];
    [ exact Ha | now apply IH ].
Qed.

Lemma trimStart_letters s :
  JS.all_letters s = true -> JS.trimStart s = s.
Proof.
  destruct s as [ | c r ]; cbn [JS.trimStart JS.all_letters]; [ reflexivity | ].
  intros H. apply andb_prop in H. destruct H as [Hc _].
  now rewrite (letter_not_white c Hc).
Qed.

(** A word of letters survives [trim]. *)
Lemma trim_letters_not_falsy w :
  JS.test_only_letters w = true -> JS.falsy (JS.trim w) = false.
Proof.
  destruct w as [ | c r ]; [ discriminate | ].
  cbn [JS.test_only_letters]. intros H. unfold JS.trim.
  rewrite (trimStart_letters _ H).
  rewrite trimStart_letters by now apply rev_string_letters.
  cbn [JS.rev_string].
  destruct (JS.rev_string r (String c "")) as [ | c' r' ] eqn:E.
  - assert (F : JS.falsy (JS.rev_string r (String c "")) = false)
      by now apply rev_string_falsy.
    rewrite E in F. discriminate.
  - cbn [JS.rev_string]. now apply rev_string_falsy.
Qed.

Lemma validateWord_letters w st :
  JS.test_only_letters w = true ->
  validateWord w st = (true, setValidationError "" st).
Proof.
  intros H. unfold validateWord.
  now rewrite (trim_letters_not_falsy w H), H.
Qed.

(** [validateWord] touches the message only. *)
Lemma validateWord_store w st :
  currentVocab (snd (validateWord w st)) = currentVocab st /\
  currentEmbeddings (snd (validateWord w st)) = currentEmbeddings st /\
  nearestIndexes (snd (validateWord w st)) = nearestIndexes st /\
  model (snd (validateWord w st)) = model st.
Proof.
  unfold validateWord.
  destruct (JS.falsy (JS.trim w)); [ | destruct (negb (JS.test_only_letters w)) ];
    repeat split; reflexivity.
Qed.

Lemma addWord_accepted w st encoder v :
  JS.test_only_letters w = true ->
  model st = Some encoder -> encoder (JS.toLowerCase w) = Some v ->
  addWord w st =
  {| currentVocab := currentVocab st ++ [w];
     currentEmbeddings := currentEmbeddings st ++ [v];
     inputValue := "";
     isInputVisible := false;
     validationError := "";
     highlightedWord := Some w;
     isProcessing := false;
     model := model st;
     isModelLoading := isModelLoading st;
     nearestIndexes := nearestIndexes st |}.
Proof.
  intros Hw Hm He. unfold addWord. rewrite (validateWord_letters w st Hw).
  cbn. rewrite Hm, He. rewrite <- Hm. reflexivity.
Qed.

Lemma fallbackAddWord_accepted Math_sin Math_cos w st :
  JS.test_only_letters w = true ->
  fallbackAddWord Math_sin Math_cos w st =
  {| currentVocab := currentVocab st ++ [w];
     currentEmbeddings := currentEmbeddings st ++ [simpleEmbedding Math_sin Math_cos w];
     inputValue := "";
     isInputVisible := false;
     validationError := "";
     highlightedWord := Some w;
     isProcessing := false;
     model := model st;
     isModelLoading := isModelLoading st;
     nearestIndexes := nearestIndexes st |}.
Proof.
  intros Hw. unfold fallbackAddWord. rewrite (validateWord_letters w st Hw).
  reflexivity.
Qed.

Lemma simpleEmbedding_length Math_sin Math_cos w :
  List.length (simpleEmbedding Math_sin Math_cos w) = 100.
Proof. unfold simpleEmbedding. now rewrite length_map, length_seq. Qed.

End Validation.

(** * The claims about the store *)

Section StoreClaims.
Import Validation.
Variables Math_sin Math_cos : JS.number -> JS.number.

(** C3 as stated fails: nothing compares the new word with the vocabulary.
    Adding "cat" twice succeeds twice, and the store holds it twice. *)
Lemma second_cat_is_accepted :
  currentVocab (addWord "cat" (addWord "cat" (loadedState [] [] planeEncoder)))
  = ["cat"; "cat"]%string /\
  validationError (addWord "cat" (addWord "cat" (loadedState [] [] planeEncoder)))
  = ""%string.
Proof. split; vm_compute; reflexivity. Qed.

(** C3 (amended): a word of letters that is already in the vocabulary, in
    the same or another case, is appended again together with its vector:
    by [addWord] whenever the encoder answers, and by [fallbackAddWord] in
    every state.  No error is set, the store grows by one entry, and the
    vocabulary holds the word once more than before. *)
Theorem duplicate_word_is_appended w st :
  JS.test_only_letters w = true ->
  (exists stored,
     In stored (currentVocab st) /\ JS.toLowerCase stored = JS.toLowerCase w) ->
  (forall encoder v,
     model st = Some encoder -> encoder (JS.toLowerCase w) = Some v ->
     currentVocab (addWord w st) = currentVocab st ++ [w] /\
     currentEmbeddings (addWord w st) = currentEmbeddings st ++ [v] /\
     validationError (addWord w st) = ""%string /\
     List.length (currentVocab (addWord w st)) = S (List.length (currentVocab st)) /\
     List.length (currentEmbeddings (addWord w st))
     = S (List.length (currentEmbeddings st)) /\
     count_occ string_dec (currentVocab (addWord w st)) w
     = S (count_occ string_dec (currentVocab st) w)) /\
  (currentVocab (fallbackAddWord Math_sin Math_cos w st) = currentVocab st ++ [w] /\
   currentEmbeddings (fallbackAddWord Math_sin Math_cos w st)
   = currentEmbeddings st ++ [simpleEmbedding Math_sin Math_cos w] /\
   validationError (fallbackAddWord Math_sin Math_cos w st) = ""%string /\
   List.length (currentVocab (fallbackAddWord Math_sin Math_cos w st))
   = S (List.length (currentVocab st)) /\
   List.length (currentEmbeddings (fallbackAddWord Math_sin Math_cos w st))
   = S (List.length (currentEmbeddings st)) /\
   count_occ string_dec (currentVocab (fallbackAddWord Math_sin Math_cos w st)) w
   = S (count_occ string_dec (currentVocab st) w)).
Proof.
  intros Hw _.
  assert (C : count_occ string_dec (currentVocab st ++ [w]) w
              = S (count_occ string_dec (currentVocab st) w)).
  { rewrite count_occ_app. cbn [count_occ].
    destruct (string_dec w w) as [ _ | N ]; [ lia | now elim N ]. }
  assert (L : forall (A : Type) (l : list A) (x : A),
                List.length (l ++ [x]) = S (List.length l)).
  { intros A l x. rewrite length_app. cbn [List.length]. lia. }
  split.
  - intros encoder v Hm He.
    rewrite (addWord_accepted w st encoder v Hw Hm He).
    cbn [currentVocab currentEmbeddings validationError].
    rewrite !L. repeat split. exact C.
  - rewrite (fallbackAddWord_accepted Math_sin Math_cos w st Hw).
    cbn [currentVocab currentEmbeddings validationError].
    rewrite !L. repeat split. exact C.
Qed.

(** C4 as stated fails: nothing compares the length of the new vector with
    the stored ones.  A two-component answer of the encoder is appended to a
    store of three-component vectors. *)
Lemma shorter_vector_is_accepted :
  currentEmbeddings
    (addWord "dog" (loadedState ["cat"]%string [[1; 0; 0]]%float planeEncoder))
  = [[1; 0; 0]; [1; 0]]%float /\
  validationError
    (addWord "dog" (loadedState ["cat"]%string [[1; 0; 0]]%float planeEncoder))
  = ""%string.
Proof. split; vm_compute; reflexivity. Qed.

(** C4 (amended): in a non-empty store whose vectors all have [d]
    components, a word of letters is appended together with its vector
    whatever the vector's length: the 100-component fallback vector when
    [d] is not 100, and, for every [d], any answer of the encoder whose
    length is not [d].  No error is set, and the store then holds vectors of
    two lengths. *)
Theorem mismatched_vector_is_appended w st d :
  JS.test_only_letters w = true ->
  currentEmbeddings st <> [] ->
  (forall e, In e (currentEmbeddings st) -> List.length e = d) ->
  (d <> 100 ->
   currentEmbeddings (fallbackAddWord Math_sin Math_cos w st)
   = currentEmbeddings st ++ [simpleEmbedding Math_sin Math_cos w] /\
   List.length (simpleEmbedding Math_sin Math_cos w) = 100 /\
   validationError (fallbackAddWord Math_sin Math_cos w st) = ""%string /\
   twoLengths (currentEmbeddings (fallbackAddWord Math_sin Math_cos w st))) /\
  (forall encoder v,
     model st = Some encoder -> encoder (JS.toLowerCase w) = Some v ->
     List.length v <> d ->
     currentEmbeddings (addWord w st) = currentEmbeddings st ++ [v] /\
     validationError (addWord w st) = ""%string /\
     twoLengths (currentEmbeddings (addWord w st))).
Proof.
  intros Hw Hne Hd.
  assert (T : forall v, List.length v <> d ->
                        twoLengths (currentEmbeddings st ++ [v])).
  { intros v Hv. destruct (currentEmbeddings st) as [ | e rest ] eqn:E;
      [ now elim Hne | ].
    exists e, v. split; [ now left | ].
    split; [ apply in_or_app; right; now left | ].
    rewrite (Hd e) by now left. congruence. }
  split.
  - intros H100.
    rewrite (fallbackAddWord_accepted Math_sin Math_cos w st Hw).
    cbn [currentEmbeddings validationError].
    split; [ reflexivity | ].
    split; [ apply simpleEmbedding_length | ].
    split; [ reflexivity | ].
    apply T. rewrite simpleEmbedding_length. congruence.
  - intros encoder v Hm He Hv.
    rewrite (addWord_accepted w st encoder v Hw Hm He).
    cbn [currentEmbeddings validationError].
    split; [ reflexivity | ]. split; [ reflexivity | now apply T ].
Qed.

(** Neither way of adding a word writes the neighbour list. *)
Lemma adding_keeps_nearestIndexes w st :
  nearestIndexes (addWord w st) = nearestIndexes st /\
  nearestIndexes (fallbackAddWord Math_sin Math_cos w st) = nearestIndexes st.
Proof.
  unfold addWord, fallbackAddWord.
  destruct (validateWord_store w st) as (_ & _ & Hn & Hm).
  destruct (validateWord w st) as [ok st']. cbn [snd] in Hn, Hm.
  destruct ok; cbn [negb]; [ | now split ].
  split; [ | exact Hn ].
  destruct (model st') as [ encoder | ]; [ | exact Hn ].
  destruct (encoder (JS.toLowerCase w)); exact Hn.
Qed.

(** C5, at the failing input.  "sun" is selected, its neighbours are the
    indices 2 and 1.  Adding "sky" highlights "sky" and leaves the neighbour
    list as it was; the neighbours of the new vector would be 1, 2 and 0. *)
Theorem added_word_keeps_old_neighbours :
  nearestIndexes sunSelected = [2; 1] /\
  highlightedWord (addWord "sky" sunSelected) = Some "sky"%string /\
  nearestIndexes (addWord "sky" sunSelected) = [2; 1] /\
  findNearestNeighbors
    (currentEmbeddings (addWord "sky" sunSelected)) [-1; 0]%float 5
  = [1; 2; 0].
Proof. repeat split; vm_compute; reflexivity. Qed.

End StoreClaims.

Lemma duplicate_word_is_appended_cat :
  JS.test_only_letters "Cat" = true /\
  (exists stored,
     In stored (currentVocab (loadedState ["cat"]%string [[1; 0]]%float planeEncoder)) /\
     JS.toLowerCase stored = JS.toLowerCase "Cat") /\
  currentVocab
    (addWord "Cat" (loadedState ["cat"]%string [[1; 0]]%float planeEncoder))
  = ["cat"; "Cat"]%string /\
  currentEmbeddings
    (addWord "Cat" (loadedState ["cat"]%string [[1; 0]]%float planeEncoder))
  = [[1; 0]; [1; 0]]%float /\
  currentVocab
    (fallbackAddWord sinSeries cosSeries "Cat"
       (loadedState ["cat"]%string [[1; 0]]%float planeEncoder))
  = ["cat"; "Cat"]%string /\
  currentEmbeddings
    (fallbackAddWord sinSeries cosSeries "Cat"
       (loadedState ["cat"]%string [[1; 0]]%float planeEncoder))
  = [[1; 0]%float; simpleEmbedding sinSeries cosSeries "Cat"].
Proof.
  assert (H : exists stored,
             In stored (currentVocab (loadedState ["cat"]%string [[1; 0]]%float planeEncoder)) /\
             JS.toLowerCase stored = JS.toLowerCase "Cat").
  { exists "cat"%string. split; [ left; reflexivity | reflexivity ]. }
  split; [ reflexivity | ]. split; [ exact H | ].
  destruct (duplicate_word_is_appended sinSeries cosSeries "Cat"
              (loadedState ["cat"]%string [[1; 0]]%float planeEncoder) eq_refl H)
    as [Hmodel (Fv & Fe & _)].
  destruct (Hmodel planeEncoder [1; 0]%float eq_refl eq_refl) as (Av & Ae & _).
  split; [ exact Av | ]. split; [ exact Ae | ].
  split; [ exact Fv | exact Fe ].
Defined.

Lemma mismatched_vector_is_appended_dog :
  (currentEmbeddings
     (addWord "dog"
        (loadedState ["cat"]%string [repeat 1%float 100] planeEncoder))
   = [repeat 1%float 100; [1; 0]%float] /\
   twoLengths
     (currentEmbeddings
        (addWord "dog"
           (loadedState ["cat"]%string [repeat 1%float 100] planeEncoder)))) /\
  (List.length
     (currentEmbeddings
        (fallbackAddWord sinSeries cosSeries "dog"
           (initialState ["cat"]%string [[1; 0; 0]]%float)))
   = 2 /\
   List.length (simpleEmbedding sinSeries cosSeries "dog") = 100 /\
   twoLengths
     (currentEmbeddings
        (fallbackAddWord sinSeries cosSeries "dog"
           (initialState ["cat"]%string [[1; 0; 0]]%float)))).
Proof.
  split.
  - assert (N : currentEmbeddings
                  (loadedState ["cat"]%string [repeat 1%float 100] planeEncoder)
                <> []) by discriminate.
    assert (L : forall e,
               In e (currentEmbeddings
                       (loadedState ["cat"]%string [repeat 1%float 100] planeEncoder)) ->
               List.length e = 100).
    { intros e [ <- | [] ]. reflexivity. }
    destruct (mismatched_vector_is_appended sinSeries cosSeries "dog"
                (loadedState ["cat"]%string [repeat 1%float 100] planeEncoder) 100
                eq_refl N L) as [_ Hmodel].
    assert (D : List.length [1; 0]%float <> 100) by discriminate.
    destruct (Hmodel planeEncoder [1; 0]%float eq_refl eq_refl D) as (E & _ & T).
    split; [ exact E | exact T ].
  - assert (N : currentEmbeddings (initialState ["cat"]%string [[1; 0; 0]]%float) <> [])
      by discriminate.
    assert (L : forall e,
               In e (currentEmbeddings (initialState ["cat"]%string [[1; 0; 0]]%float)) ->
               List.length e = 3).
    { intros e [ <- | [] ]. reflexivity. }
    destruct (mismatched_vector_is_appended sinSeries cosSeries "dog"
                (initialState ["cat"]%string [[1; 0; 0]]%float) 3 eq_refl N L)
      as [Hfallback _].
    assert (D : 3 <> 100) by discriminate.
    destruct (Hfallback D) as (E & Hlen & _ & T).
    split; [ rewrite E; reflexivity | ]. split; [ exact Hlen | exact T ].
Defined.

(** * The store only grows *)

Module Growth.
Import Validation.

Lemma extends_refl st : extends st st.
Proof. exists [], []. now rewrite !app_nil_r. Qed.

Lemma extends_trans a b c : extends a b -> extends b c -> extends a c.
Proof.
  intros (w1 & v1 & L1 & W1 & V1) (w2 & v2 & L2 & W2 & V2).
  exists (w1 ++ w2), (v1 ++ v2).
  rewrite W2, V2, W1, V1, !length_app, <- !app_assoc. repeat split. lia.
Qed.

Lemma extends_same a b :
  currentVocab b = currentVocab a -> currentEmbeddings b = currentEmbeddings a ->
  extends a b.
Proof. intros W V. exists [], []. now rewrite W, V, !app_nil_r. Qed.

Lemma validateWord_extends w st : extends st (snd (validateWord w st)).
Proof.
  destruct (validateWord_store w st) as (W & V & _). now apply extends_same.
Qed.

Lemma addWord_extends w st : extends st (addWord w st).
Proof.
  apply extends_trans with (snd (validateWord w st)); [ apply validateWord_extends | ].
  unfold addWord. destruct (validateWord w st) as [ok st']. cbn [snd].
  destruct ok; cbn [negb]; [ | apply extends_refl ].
  destruct (model st') as [ encoder | ]; [ | now apply extends_same ].
  destruct (encoder (JS.toLowerCase w)) as [ v | ]; [ | now apply extends_same ].
  exists [w], [v]. repeat split.
Qed.

Lemma fallbackAddWord_extends Math_sin Math_cos w st :
  extends st (fallbackAddWord Math_sin Math_cos w st).
Proof.
  apply extends_trans with (snd (validateWord w st)); [ apply validateWord_extends | ].
  unfold fallbackAddWord. destruct (validateWord w st) as [ok st']. cbn [snd].
  destruct ok; cbn [negb]; [ | apply extends_refl ].
  exists [w], [simpleEmbedding Math_sin Math_cos w]. repeat split.
Qed.

Lemma onSelect_store w st :
  currentVocab (onSelect w st) = currentVocab st /\
  currentEmbeddings (onSelect w st) = currentEmbeddings st.
Proof.
  unfold onSelect. destruct (isHighlighted st w); [ now split | ].
  cbv zeta.
  destruct (JS.indexOf (currentVocab (setHighlightedWord (Some w) st)) w)
    as [ idx | ]; [ | now split ].
  destruct (nth_error (currentEmbeddings (setHighlightedWord (Some w) st)) idx);
    [ now split | ].
  remember (currentEmbeddings (setHighlightedWord (Some w) st)) as stored.
  destruct stored; now split.
Qed.

Lemma onSelect_extends w st : extends st (onSelect w st).
Proof. destruct (onSelect_store w st). now apply extends_same. Qed.

Lemma step_extends Math_sin Math_cos rt ev :
  extends (cells rt) (cells (step Math_sin Math_cos rt ev)).
Proof.
  destruct ev; cbn [step onCells cells].
  - unfold render. destruct (sameDeps _ _); [ apply extends_refl | ].
    unfold loadUSEModel. cbn [cells].
    destruct (negb _ && negb _); now apply extends_same.
  - unfold loadSettled. destruct (pendingLoads rt); now apply extends_same.
  - unfold loadSettled. destruct (pendingLoads rt); now apply extends_same.
  - now apply extends_same.
  - now apply extends_same.
  - unfold handleAddWord. destruct (model (cells rt));
      [ apply addWord_extends | apply fallbackAddWord_extends ].
  - now apply extends_same.
  - apply onSelect_extends.
Qed.

Lemma run_extends Math_sin Math_cos trace : forall rt,
  extends (cells rt) (cells (run Math_sin Math_cos rt trace)).
Proof.
  induction trace as [ | ev rest IH ]; intros rt; cbn [run fold_left].
  - apply extends_refl.
  - eapply extends_trans; [ apply step_extends | apply IH ].
Qed.

Lemma indexOf_from_app arr more x : forall i idx,
  JS.indexOf_from arr x i = Some idx ->
  JS.indexOf_from (arr ++ more) x i = Some idx.
Proof.
  induction arr as [ | y t IH ]; intros i idx; cbn [JS.indexOf_from app].
  - discriminate.
  - destruct (String.eqb y x); [ trivial | apply IH ].
Qed.

End Growth.

Section GrowthClaims.
Import Growth.
Variables Math_sin Math_cos : JS.number -> JS.number.

(** C10: whatever happens to the component (renders, the model arriving or
    failing, typing, adding words by either path, clicks on words), the
    vocabulary and the embeddings afterwards are the ones before with new
    entries appended, as many words as vectors.  So every stored word and
    vector is still at its index, and [indexOf] still finds every stored
    word at the index it had. *)
Theorem store_is_append_only rt trace :
  extends (cells rt) (cells (run Math_sin Math_cos rt trace)) /\
  (forall i w,
     nth_error (currentVocab (cells rt)) i = Some w ->
     nth_error (currentVocab (cells (run Math_sin Math_cos rt trace))) i = Some w) /\
  (forall i v,
     nth_error (currentEmbeddings (cells rt)) i = Some v ->
     nth_error (currentEmbeddings (cells (run Math_sin Math_cos rt trace))) i
     = Some v) /\
  (forall w idx,
     JS.indexOf (currentVocab (cells rt)) w = Some idx ->
     JS.indexOf (currentVocab (cells (run Math_sin Math_cos rt trace))) w
     = Some idx).
Proof.
  pose proof (run_extends Math_sin Math_cos trace rt) as E.
  split; [ exact E | ].
  destruct E as (words & vectors & _ & W & V). rewrite W, V.
  repeat split.
  - intros i w H. rewrite nth_error_app1; [ exact H | ].
    apply nth_error_Some. congruence.
  - intros i v H. rewrite nth_error_app1; [ exact H | ].
    apply nth_error_Some. congruence.
  - intros w idx. apply indexOf_from_app.
Qed.

End GrowthClaims.

(** * The claims about the model and the fallback vector *)

Module Loading.
Import Validation.

Lemma validateWord_loading w st :
  isModelLoading (snd (validateWord w st)) = isModelLoading st.
Proof.
  unfold validateWord.
  destruct (JS.falsy (JS.trim w)); [ | destruct (negb (JS.test_only_letters w)) ];
    reflexivity.
Qed.

Lemma addWord_loading w st : isModelLoading (addWord w st) = isModelLoading st.
Proof.
  rewrite <- (validateWord_loading w st).
  unfold addWord. destruct (validateWord w st) as [ok st']. cbn [snd].
  destruct ok; cbn [negb]; [ | reflexivity ].
  destruct (model st') as [ encoder | ]; [ | reflexivity ].
  destruct (encoder (JS.toLowerCase w)); reflexivity.
Qed.

Lemma fallbackAddWord_loading Math_sin Math_cos w st :
  isModelLoading (fallbackAddWord Math_sin Math_cos w st) = isModelLoading st.
Proof.
  rewrite <- (validateWord_loading w st).
  unfold fallbackAddWord. destruct (validateWord w st) as [ok st']. cbn [snd].
  destruct ok; reflexivity.
Qed.

Lemma onSelect_loading w st : isModelLoading (onSelect w st) = isModelLoading st.
Proof.
  unfold onSelect. destruct (isHighlighted st w); [ reflexivity | ].
  cbv zeta.
  destruct (JS.indexOf (currentVocab (setHighlightedWord (Some w) st)) w)
    as [ idx | ]; [ | reflexivity ].
  destruct (nth_error (currentEmbeddings (setHighlightedWord (Some w) st)) idx);
    [ reflexivity | ].
  remember (currentEmbeddings (setHighlightedWord (Some w) st)) as stored.
  destruct stored; reflexivity.
Qed.

Lemma onCells_guarded f rt :
  (forall st, isModelLoading (f st) = isModelLoading st) ->
  loadGuarded rt -> loadGuarded (onCells f rt).
Proof.
  intros Hf [Hle Hflag]. split; cbn [onCells pendingLoads cells].
  - exact Hle.
  - rewrite Hf. exact Hflag.
Qed.

Lemma loadUSEModel_guarded rt : loadGuarded rt -> loadGuarded (loadUSEModel rt).
Proof.
  intros [Hle Hflag]. unfold loadUSEModel.
  destruct (hasModel (cells rt)); cbn [negb andb]; [ now split | ].
  destruct (isModelLoading (cells rt)) eqn:L; cbn [negb]; [ now split | ].
  assert (P : pendingLoads rt = 0).
  { destruct (pendingLoads rt) as [ | [ | n ]]; [ reflexivity | | lia ].
    specialize (Hflag eq_refl). discriminate. }
  split; cbn [pendingLoads cells]; [ lia | reflexivity ].
Qed.

Lemma step_guarded Math_sin Math_cos rt ev :
  loadGuarded rt -> loadGuarded (step Math_sin Math_cos rt ev).
Proof.
  intros G. destruct ev; cbn [step].
  - unfold render. destruct (sameDeps _ _).
    + exact G.
    + apply loadUSEModel_guarded. exact G.
  - destruct G as [Hle _]. unfold loadSettled.
    destruct (pendingLoads rt) as [ | p ] eqn:P; [ split; [ lia | lia ] | ].
    split; cbn [pendingLoads]; lia.
  - destruct G as [Hle _]. unfold loadSettled.
    destruct (pendingLoads rt) as [ | p ] eqn:P; [ split; [ lia | lia ] | ].
    split; cbn [pendingLoads]; lia.
  - now apply onCells_guarded.
  - now apply onCells_guarded.
  - apply onCells_guarded; [ | exact G ]. intros st. unfold handleAddWord.
    destruct (model st); [ apply addWord_loading | apply fallbackAddWord_loading ].
  - now apply onCells_guarded.
  - apply onCells_guarded; [ | exact G ]. intros st. apply onSelect_loading.
Qed.

Lemma run_guarded Math_sin Math_cos trace : forall rt,
  loadGuarded rt -> loadGuarded (run Math_sin Math_cos rt trace).
Proof.
  induction trace as [ | ev rest IH ]; intros rt G; cbn [run fold_left].
  - exact G.
  - apply IH. now apply step_guarded.
Qed.

(** The guard of line 38 does what it is there for: however the events
    fall, two calls of [use.load()] are never pending together. *)
Lemma at_most_one_pending_load Math_sin Math_cos vocab embeddings trace :
  pendingLoads (run Math_sin Math_cos (mount vocab embeddings) trace) <= 1.
Proof.
  apply (run_guarded Math_sin Math_cos trace (mount vocab embeddings)).
  split; cbn; [ lia | discriminate ].
Qed.

(** After a rejection the flag is back to [false] with no model, the
    dependencies of the effect have changed, and the next render calls
    [use.load()] again. *)
Lemma rejection_restarts_load Math_sin Math_cos rt :
  pendingLoads rt = 1 ->
  effectDeps rt = Some (false, true) ->
  hasModel (cells rt) = false ->
  loadCalls (run Math_sin Math_cos rt [LoadRejected; Render]) = S (loadCalls rt) /\
  pendingLoads (run Math_sin Math_cos rt [LoadRejected; Render]) = 1.
Proof.
  intros P D M. cbn [run fold_left step].
  unfold loadSettled. rewrite P.
  unfold render. cbn [cells effectDeps]. rewrite D.
  unfold loadUSEModel, depsOf, hasModel in *.
  cbn [cells model isModelLoading setIsModelLoading].
  destruct (model (cells rt)); [ discriminate | ].
  split; reflexivity.
Qed.

Lemma rejection_cycle Math_sin Math_cos rt :
  awaitingLoad rt ->
  awaitingLoad (run Math_sin Math_cos rt [LoadRejected; Render; Render]) /\
  loadCalls (run Math_sin Math_cos rt [LoadRejected; Render; Render])
  = S (loadCalls rt).
Proof.
  destruct rt as [st deps pending calls]. intros (P & D & M).
  cbn [pendingLoads effectDeps cells] in P, D, M. subst pending deps.
  destruct st as [vocab embeddings input visible message highlighted
                  processing encoder loading neighbours].
  destruct encoder; [ discriminate | ].
  repeat split.
Qed.

Lemma rejections_counted Math_sin Math_cos n : forall rt,
  awaitingLoad rt ->
  loadCalls (run Math_sin Math_cos rt (rejections n)) = loadCalls rt + n.
Proof.
  induction n as [ | n IH ]; intros rt A.
  - cbn. lia.
  - destruct (rejection_cycle Math_sin Math_cos rt A) as [A' C'].
    change (run Math_sin Math_cos rt (rejections (S n)))
      with (run Math_sin Math_cos
              (run Math_sin Math_cos rt [LoadRejected; Render; Render])
              (rejections n)).
    rewrite (IH _ A'), C'. lia.
Qed.

(** Every rejection is followed by another call of [use.load()]. *)
Lemma load_retried_every_time Math_sin Math_cos vocab embeddings n :
  loadCalls
    (run Math_sin Math_cos (mount vocab embeddings)
       ([Render; Render] ++ rejections n))
  = S n.
Proof.
  unfold run. rewrite fold_left_app.
  apply (rejections_counted Math_sin Math_cos n
           (run Math_sin Math_cos (mount vocab embeddings) [Render; Render])).
  repeat split.
Qed.

End Loading.

Section ModelClaims.
Variables Math_sin Math_cos : JS.number -> JS.number.

(** C9, at the failing input: a run in which [use.load()] rejects.  The
    first render starts the load, the second sees the flag and does
    nothing.  The rejection clears the flag; the render that follows finds
    the dependencies changed, no model and no flag, and calls [use.load()]
    a second time. *)
Theorem rejected_load_is_retried vocab embeddings :
  loadCalls
    (run Math_sin Math_cos (mount vocab embeddings) [Render; Render]) = 1 /\
  loadCalls
    (run Math_sin Math_cos (mount vocab embeddings)
       [Render; Render; LoadRejected; Render]) = 2 /\
  pendingLoads
    (run Math_sin Math_cos (mount vocab embeddings)
       [Render; Render; LoadRejected; Render]) = 1.
Proof. repeat split. Qed.

End ModelClaims.

Module Fallback.

Lemma lower_is_letter c : isLower c = true -> JS.isLetter c = true.
Proof. unfold JS.isLetter, isLower. intros ->. apply orb_true_r. Qed.

Lemma lowerChar_lower c : isLower c = true -> JS.lowerChar c = c.
Proof.
  destruct c as [[] [] [] [] [] [] [] []]; vm_compute; congruence.
Qed.

Lemma all_lower_letters w : all_lower w = true -> JS.all_letters w = true.
Proof.
  induction w as [ | c r IH ]; cbn [all_lower JS.all_letters]; [ trivial | ].
  intros H. apply andb_prop in H. destruct H as [Hc Hr].
  now rewrite (lower_is_letter c Hc), IH.
Qed.

Lemma lower_word_is_valid w :
  w <> ""%string -> all_lower w = true -> JS.test_only_letters w = true.
Proof.
  destruct w as [ | c r ]; [ now intros N | ].
  intros _ H. cbn [JS.test_only_letters]. now apply all_lower_letters.
Qed.

Lemma toLowerCase_lower w : all_lower w = true -> JS.toLowerCase w = w.
Proof.
  induction w as [ | c r IH ]; cbn [all_lower JS.toLowerCase]; [ trivial | ].
  intros H. apply andb_prop in H. destruct H as [Hc Hr].
  now rewrite (lowerChar_lower c Hc), IH.
Qed.

Lemma split_chars_length w :
  List.length (JS.split_chars w) = String.length w.
Proof.
  unfold JS.split_chars.
  induction w as [ | c r IH ]; cbn; [ | rewrite IH ]; reflexivity.
Qed.

Lemma nth_map_seq {A : Type} (F : nat -> A) n i d :
  i < n -> nth i (map F (seq 0 n)) d = F i.
Proof.
  intros H. rewrite (nth_indep _ d (F 0)) by now rewrite length_map, length_seq.
  rewrite map_nth, seq_nth by assumption. reflexivity.
Qed.

End Fallback.

Section FallbackClaims.
Import Validation Fallback.
Variables Math_sin Math_cos : JS.number -> JS.number.

(** C6: for a non-empty word of a-z the fallback vector has 100 components,
    component [i] is [sin(charValue * (i / 100)) * cos(charValue)] with
    [charValue = ord(word[i mod wordLength]) - ord('a') + 1], and the vector
    appended for the word is the same in whatever state the word is added. *)
Theorem fallback_vector_formula w i :
  w <> ""%string -> all_lower w = true -> i < 100 ->
  List.length (simpleEmbedding Math_sin Math_cos w) = 100 /\
  nth i (simpleEmbedding Math_sin Math_cos w) nan
  = (Math_sin (specCharValue w i * (JS.number_of_nat i / 100))
     * Math_cos (specCharValue w i))%float /\
  (forall st1 st2,
     last (currentEmbeddings (fallbackAddWord Math_sin Math_cos w st1)) []
     = last (currentEmbeddings (fallbackAddWord Math_sin Math_cos w st2)) []).
Proof.
  intros Hne Hlow Hi.
  split; [ apply simpleEmbedding_length | ].
  split.
  - unfold simpleEmbedding. rewrite (toLowerCase_lower w Hlow).
    rewrite nth_map_seq by assumption.
    assert (Hlen : String.length w <> 0) by (destruct w; [ now elim Hne | discriminate ]).
    assert (Hcv : JS.at_index
                    (map (fun c => JS.number_of_Z (JS.charCode c - 96)) (JS.split_chars w))
                    (i mod List.length
                       (map (fun c => JS.number_of_Z (JS.charCode c - 96))
                            (JS.split_chars w)))
                  = specCharValue w i).
    { unfold JS.at_index, specCharValue.
      set (g := fun c => JS.number_of_Z (JS.charCode c - 96)).
      rewrite length_map, split_chars_length.
      rewrite (nth_indep _ nan (g "a"%char)).
      - rewrite (map_nth g). unfold g, JS.split_chars. f_equal.
        change (JS.charCode "a") with 97%Z. lia.
      - rewrite length_map, split_chars_length.
        now apply Nat.mod_upper_bound. }
    rewrite Hcv. reflexivity.
  - intros st1 st2.
    pose proof (lower_word_is_valid w Hne Hlow) as Hv.
    rewrite !(fallbackAddWord_accepted Math_sin Math_cos w _ Hv).
    cbn [currentEmbeddings]. now rewrite !last_last.
Qed.

End FallbackClaims.

Lemma fallback_vector_formula_cat :
  ("cat" <> "" /\ all_lower "cat" = true /\ 3 < 100)%string /\
  nth 3 (simpleEmbedding sinSeries cosSeries "cat") nan
  = (sinSeries (specCharValue "cat" 3 * (JS.number_of_nat 3 / 100))
     * cosSeries (specCharValue "cat" 3))%float.
Proof.
  assert (N : "cat"%string <> ""%string) by discriminate.
  assert (L : 3 < 100) by lia.
  split; [ repeat split; assumption | ].
  exact (proj1 (proj2
    (fallback_vector_formula sinSeries cosSeries "cat" 3 N eq_refl L))).
Defined.

(** * More about validation and adding *)

Module ValidationFacts.
Import Validation Fallback.

Lemma trimStart_falsy s : JS.falsy (JS.trimStart s) = all_white s.
Proof.
  induction s as [ | c r IH ]; cbn [JS.trimStart all_white]; [ reflexivity | ].
  destruct (JS.isWhiteSpace c); [ exact IH | reflexivity ].
Qed.

Lemma all_white_trimStart s : all_white (JS.trimStart s) = all_white s.
Proof.
  induction s as [ | c r IH ]; cbn [JS.trimStart all_white]; [ reflexivity | ].
  destruct (JS.isWhiteSpace c) eqn:W; [ exact IH | ].
  cbn [all_white]. now rewrite W.
Qed.

Lemma all_white_rev s : forall acc,
  all_white (JS.rev_string s acc) = all_white s && all_white acc.
Proof.
  induction s as [ | c r IH ]; intros acc; cbn [JS.rev_string all_white].
  - reflexivity.
  - rewrite IH. cbn [all_white].
    destruct (JS.isWhiteSpace c), (all_white r), (all_white acc); reflexivity.
Qed.

Lemma falsy_rev s : forall acc,
  JS.falsy (JS.rev_string s acc) = JS.falsy s && JS.falsy acc.
Proof.
  induction s as [ | c r IH ]; intros acc; cbn [JS.rev_string].
  - reflexivity.
  - rewrite IH. cbn [JS.falsy]. now rewrite andb_false_r.
Qed.

(** [!word.trim()] holds exactly for the strings of white space. *)
Lemma trim_falsy s : JS.falsy (JS.trim s) = all_white s.
Proof.
  unfold JS.trim. rewrite falsy_rev. cbn [JS.falsy]. rewrite andb_true_r.
  rewrite trimStart_falsy, all_white_rev. cbn [all_white].
  rewrite andb_true_r. apply all_white_trimStart.
Qed.

Lemma white_not_letter c : JS.isWhiteSpace c = true -> JS.isLetter c = false.
Proof.
  intros W. destruct (JS.isLetter c) eqn:L; [ | reflexivity ].
  apply letter_not_white in L. congruence.
Qed.

Lemma all_white_not_letters s :
  all_white s = true -> JS.test_only_letters s = false.
Proof.
  destruct s as [ | c r ]; [ reflexivity | ].
  cbn [all_white JS.test_only_letters JS.all_letters]. intros H.
  apply andb_prop in H. destruct H as [W _].
  now rewrite (white_not_letter c W).
Qed.

Lemma lowerChar_letter c : JS.isLetter c = true -> isLower (JS.lowerChar c) = true.
Proof.
  destruct c as [[] [] [] [] [] [] [] []]; vm_compute; congruence.
Qed.

Lemma toLowerCase_letters w :
  JS.all_letters w = true -> all_lower (JS.toLowerCase w) = true.
Proof.
  induction w as [ | c r IH ]; cbn [JS.all_letters JS.toLowerCase all_lower];
    [ trivial | ].
  intros H. apply andb_prop in H. destruct H as [Hc Hr].
  now rewrite (lowerChar_letter c Hc), IH.
Qed.

Lemma toLowerCase_valid w :
  JS.test_only_letters w = true ->
  JS.toLowerCase w <> ""%string /\ all_lower (JS.toLowerCase w) = true.
Proof.
  destruct w as [ | c r ]; [ discriminate | ].
  cbn [JS.test_only_letters]. intros H. split.
  - discriminate.
  - now apply toLowerCase_letters.
Qed.

(** [validateWord] in one equation. *)
Lemma validateWord_cases w st :
  validateWord w st =
  (JS.test_only_letters w,
   setValidationError
     (if all_white w then "Please enter a word."
      else if JS.test_only_letters w then ""
           else "Invalid word. Please use only letters.")%string st).
Proof.
  unfold validateWord. rewrite trim_falsy.
  destruct (all_white w) eqn:W.
  - now rewrite (all_white_not_letters w W).
  - destruct (JS.test_only_letters w); reflexivity.
Qed.

Lemma addWord_rejected w st :
  JS.test_only_letters w = false ->
  addWord w st = snd (validateWord w st).
Proof.
  intros H. unfold addWord. rewrite validateWord_cases, H. reflexivity.
Qed.

Lemma fallbackAddWord_rejected Math_sin Math_cos w st :
  JS.test_only_letters w = false ->
  fallbackAddWord Math_sin Math_cos w st = snd (validateWord w st).
Proof.
  intros H. unfold fallbackAddWord. rewrite validateWord_cases, H. reflexivity.
Qed.

Lemma addWord_no_model w st :
  JS.test_only_letters w = true -> model st = None ->
  addWord w st =
  setValidationError "Model is still loading. Please try again in a moment." 
    (setValidationError "" st).
Proof.
  intros Hw Hm. unfold addWord. rewrite (validateWord_letters w st Hw).
  cbn. now rewrite Hm.
Qed.

Lemma addWord_encoder_failed w st encoder :
  JS.test_only_letters w = true ->
  model st = Some encoder -> encoder (JS.toLowerCase w) = None ->
  addWord w st =
  setIsProcessing false
    (setValidationError "Failed to generate embedding for this word."
       (setIsProcessing true (setValidationError "" st))).
Proof.
  intros Hw Hm He. unfold addWord. rewrite (validateWord_letters w st Hw).
  cbn. now rewrite Hm, He.
Qed.

End ValidationFacts.

Section AddingFacts.
Import Validation Fallback ValidationFacts.
Variables Math_sin Math_cos : JS.number -> JS.number.

Lemma sameScene_message msg st : sameScene st (setValidationError msg st).
Proof. repeat split. Qed.

Lemma handleAddWord_accepts st v :
  acceptedVector Math_sin Math_cos st = Some v ->
  handleAddWord Math_sin Math_cos st =
  {| currentVocab := currentVocab st ++ [inputValue st];
     currentEmbeddings := currentEmbeddings st ++ [v];
     inputValue := "";
     isInputVisible := false;
     validationError := "";
     highlightedWord := Some (inputValue st);
     isProcessing := false;
     model := model st;
     isModelLoading := isModelLoading st;
     nearestIndexes := nearestIndexes st |}.
Proof.
  unfold acceptedVector, handleAddWord.
  destruct (JS.test_only_letters (inputValue st)) eqn:Hw; [ | discriminate ].
  destruct (model st) as [ encoder | ] eqn:Hm; intros Hv.
  - rewrite (addWord_accepted _ st encoder v Hw Hm Hv). now rewrite Hm.
  - injection Hv as <-.
    rewrite (fallbackAddWord_accepted Math_sin Math_cos _ st Hw). now rewrite Hm.
Qed.

Lemma handleAddWord_refuses st :
  acceptedVector Math_sin Math_cos st = None ->
  sameScene st (handleAddWord Math_sin Math_cos st) /\
  validationError (handleAddWord Math_sin Math_cos st) <> ""%string.
Proof.
  unfold acceptedVector, handleAddWord.
  destruct (JS.test_only_letters (inputValue st)) eqn:Hw.
  - destruct (model st) as [ encoder | ] eqn:Hm; [ | discriminate ].
    intros He. rewrite (addWord_encoder_failed _ st encoder Hw Hm He).
    split; [ repeat split | discriminate ].
  - intros _.
    assert (E : forall r, r = snd (validateWord (inputValue st) st) ->
                          sameScene st r /\ validationError r <> ""%string).
    { intros r ->. rewrite validateWord_cases, Hw. cbn [snd].
      split; [ apply sameScene_message | ].
      cbn [validationError setValidationError].
      destruct (all_white (inputValue st)); discriminate. }
    destruct (model st); apply E;
      [ now apply addWord_rejected | now apply fallbackAddWord_rejected ].
Qed.

(** X1: the verdict of [validateWord] is the letters test alone, for every
    input: the white-space test before it rejects nothing that the test
    would accept.  The message is empty exactly when the word is accepted,
    and nothing else of the scene changes. *)
Theorem validateWord_verdict w st :
  fst (validateWord w st) = JS.test_only_letters w /\
  (validationError (snd (validateWord w st)) = ""%string
   <-> JS.test_only_letters w = true) /\
  sameScene st (snd (validateWord w st)).
Proof.
  rewrite validateWord_cases. cbn [fst snd].
  split; [ reflexivity | ]. split; [ | apply sameScene_message ].
  cbn [validationError setValidationError].
  destruct (all_white w) eqn:W.
  - rewrite (all_white_not_letters w W). split; discriminate.
  - destruct (JS.test_only_letters w); split; try discriminate; reflexivity.
Qed.

(** X2: which message an input gets.  An input of white space only (the
    empty input included) is asked for a word; any other input with a
    character that is not a letter is called invalid; the rest is a word and
    clears the message. *)
Theorem validateWord_message w st :
  (all_white w = true ->
   validationError (snd (validateWord w st)) = "Please enter a word."%string) /\
  (all_white w = false -> JS.test_only_letters w = false ->
   validationError (snd (validateWord w st))
   = "Invalid word. Please use only letters."%string) /\
  (JS.test_only_letters w = true ->
   all_white w = false /\
   validationError (snd (validateWord w st)) = ""%string).
Proof.
  rewrite validateWord_cases. cbn [snd validationError setValidationError].
  split; [ now intros -> | ]. split; [ now intros -> -> | ].
  intros Hw. destruct (all_white w) eqn:W.
  - rewrite (all_white_not_letters w W) in Hw. discriminate.
  - now rewrite Hw.
Qed.

(** X3: when [addWord] does not add (the word is not valid, or no model is
    loaded, or the encoder fails), the vocabulary, the embeddings, the input
    box, the highlight and the neighbours stay as they are, and a message is
    shown. *)
Theorem addWord_failure_keeps_scene w st :
  JS.test_only_letters w = false \/
  model st = None \/
  (exists encoder, model st = Some encoder /\ encoder (JS.toLowerCase w) = None) ->
  sameScene st (addWord w st) /\
  validationError (addWord w st) <> ""%string.
Proof.
  destruct (JS.test_only_letters w) eqn:Hw.
  - intros [ H | [ Hm | (encoder & Hm & He) ]]; [ discriminate | | ].
    + rewrite (addWord_no_model w st Hw Hm). split; [ repeat split | discriminate ].
    + rewrite (addWord_encoder_failed w st encoder Hw Hm He).
      split; [ repeat split | discriminate ].
  - intros _. rewrite (addWord_rejected w st Hw), validateWord_cases, Hw.
    cbn [snd]. split; [ apply sameScene_message | ].
    cbn [validationError setValidationError].
    destruct (all_white w); discriminate.
Qed.

(** X4: a click on "Add" either appends the input as a word together with
    one vector, clears and hides the input box, and highlights the new word,
    or changes nothing of the scene and shows a message.  The message is
    empty exactly when the word was appended. *)
Theorem add_click_appends_or_complains st :
  (validationError (handleAddWord Math_sin Math_cos st) = ""%string
   <-> currentVocab (handleAddWord Math_sin Math_cos st)
       = currentVocab st ++ [inputValue st]) /\
  (validationError (handleAddWord Math_sin Math_cos st) = ""%string ->
   exists v,
     currentEmbeddings (handleAddWord Math_sin Math_cos st)
     = currentEmbeddings st ++ [v] /\
     inputValue (handleAddWord Math_sin Math_cos st) = ""%string /\
     isInputVisible (handleAddWord Math_sin Math_cos st) = false /\
     highlightedWord (handleAddWord Math_sin Math_cos st) = Some (inputValue st)) /\
  (validationError (handleAddWord Math_sin Math_cos st) <> ""%string ->
   sameScene st (handleAddWord Math_sin Math_cos st)).
Proof.
  destruct (acceptedVector Math_sin Math_cos st) as [ v | ] eqn:A.
  - rewrite (handleAddWord_accepts st v A).
    cbn [validationError currentVocab currentEmbeddings inputValue
         isInputVisible highlightedWord].
    split; [ split; reflexivity | ].
    split; [ intros _; exists v; repeat split | intros N; now elim N ].
  - destruct (handleAddWord_refuses st A) as [S N].
    split; [ | split; [ intros E; now elim N | intros _; exact S ]].
    split; [ intros E; now elim N | ].
    destruct S as (V & _). rewrite <- V. intros E.
    apply (f_equal (@List.length string)) in E.
    rewrite length_app in E. cbn in E. lia.
Qed.

(** X5: a second click on "Add" with nothing typed in between appends
    nothing and shows a message, when the first click appended the word or
    was refused because the input is not a word of letters.  After an
    append the input box is empty; a refused input is still in the box; in
    both cases the second click stops at [validateWord] and no encoder is
    asked.  (A click whose encoder call failed is left out: the next call
    may succeed.) *)
Theorem second_add_click_appends_nothing st :
  JS.test_only_letters (inputValue st) = false \/
  validationError (handleAddWord Math_sin Math_cos st) = ""%string ->
  currentVocab (handleAddWord Math_sin Math_cos (handleAddWord Math_sin Math_cos st))
  = currentVocab (handleAddWord Math_sin Math_cos st) /\
  currentEmbeddings
    (handleAddWord Math_sin Math_cos (handleAddWord Math_sin Math_cos st))
  = currentEmbeddings (handleAddWord Math_sin Math_cos st) /\
  JS.test_only_letters (inputValue (handleAddWord Math_sin Math_cos st)) = false /\
  validationError
    (handleAddWord Math_sin Math_cos (handleAddWord Math_sin Math_cos st))
  <> ""%string.
Proof.
  intros H.
  assert (I : JS.test_only_letters (inputValue (handleAddWord Math_sin Math_cos st))
              = false).
  { destruct (acceptedVector Math_sin Math_cos st) as [ v | ] eqn:A.
    - rewrite (handleAddWord_accepts st v A). reflexivity.
    - destruct (handleAddWord_refuses st A) as [(_ & _ & I & _) N].
      destruct H as [ H | H ]; [ now rewrite <- I | now elim N ]. }
  assert (A' : acceptedVector Math_sin Math_cos (handleAddWord Math_sin Math_cos st)
               = None)
    by (unfold acceptedVector; now rewrite I).
  destruct (handleAddWord_refuses _ A') as [(V & E & _) N].
  repeat split; auto.
Qed.

(** X6: the encoder is consulted only on the lower-cased word, which is a
    non-empty word of a-z: two encoders that agree on such words make
    [addWord] behave the same on every input. *)
Theorem addWord_asks_lowercase_only w st encoder1 encoder2 :
  (forall u, u <> ""%string -> all_lower u = true -> encoder1 u = encoder2 u) ->
  currentVocab (addWord w (setModel (Some encoder1) st))
  = currentVocab (addWord w (setModel (Some encoder2) st)) /\
  currentEmbeddings (addWord w (setModel (Some encoder1) st))
  = currentEmbeddings (addWord w (setModel (Some encoder2) st)) /\
  validationError (addWord w (setModel (Some encoder1) st))
  = validationError (addWord w (setModel (Some encoder2) st)) /\
  highlightedWord (addWord w (setModel (Some encoder1) st))
  = highlightedWord (addWord w (setModel (Some encoder2) st)).
Proof.
  intros Hagree. destruct (JS.test_only_letters w) eqn:Hw.
  - destruct (toLowerCase_valid w Hw) as [Hne Hlow].
    specialize (Hagree _ Hne Hlow).
    destruct (encoder1 (JS.toLowerCase w)) as [ v | ] eqn:E1.
    + rewrite (addWord_accepted w (setModel (Some encoder1) st) encoder1 v Hw eq_refl E1).
      rewrite (addWord_accepted w (setModel (Some encoder2) st) encoder2 v Hw eq_refl
                 (eq_sym Hagree)).
      repeat split.
    + rewrite (addWord_encoder_failed w (setModel (Some encoder1) st) encoder1 Hw eq_refl E1).
      rewrite (addWord_encoder_failed w (setModel (Some encoder2) st) encoder2 Hw eq_refl
                 (eq_sym Hagree)).
      repeat split.
  - rewrite !(addWord_rejected w _ Hw), !validateWord_cases. repeat split.
Qed.

End AddingFacts.

Lemma second_add_click_appends_nothing_sky :
  (JS.test_only_letters (inputValue (setInputValue "sky" skyState)) = false \/
   validationError (handleAddWord sinSeries cosSeries (setInputValue "sky" skyState))
   = ""%string) /\
  currentVocab (handleAddWord sinSeries cosSeries (setInputValue "sky" skyState))
  = ["sun"; "moon"; "star"; "sky"]%string /\
  currentVocab
    (handleAddWord sinSeries cosSeries
       (handleAddWord sinSeries cosSeries (setInputValue "sky" skyState)))
  = currentVocab (handleAddWord sinSeries cosSeries (setInputValue "sky" skyState)).
Proof.
  assert (H : JS.test_only_letters (inputValue (setInputValue "sky" skyState)) = false \/
              validationError
                (handleAddWord sinSeries cosSeries (setInputValue "sky" skyState))
              = ""%string).
  { right. reflexivity. }
  split; [ exact H | ]. split; [ reflexivity | ].
  exact (proj1 (second_add_click_appends_nothing sinSeries cosSeries
                  (setInputValue "sky" skyState) H)).
Defined.

Lemma addWord_failure_keeps_scene_no_model :
  (JS.test_only_letters "cat" = false \/
   model (initialState [] []) = None \/
   (exists encoder,
      model (initialState [] []) = Some encoder /\
      encoder (JS.toLowerCase "cat") = None)) /\
  sameScene (initialState [] []) (addWord "cat" (initialState [] [])) /\
  validationError (addWord "cat" (initialState [] [])) <> ""%string.
Proof.
  assert (H : JS.test_only_letters "cat" = false \/
              model (initialState [] []) = None \/
              (exists encoder,
                 model (initialState [] []) = Some encoder /\
                 encoder (JS.toLowerCase "cat") = None)).
  { right. left. reflexivity. }
  split; [ exact H | ].
  exact (addWord_failure_keeps_scene "cat" (initialState [] []) H).
Defined.

Lemma addWord_asks_lowercase_only_cat :
  (forall u, u <> ""%string -> all_lower u = true ->
             planeEncoder u = lowercaseEncoder u) /\
  currentEmbeddings (addWord "Cat" (setModel (Some planeEncoder) (initialState [] [])))
  = currentEmbeddings
      (addWord "Cat" (setModel (Some lowercaseEncoder) (initialState [] []))).
Proof.
  assert (H : forall u, u <> ""%string -> all_lower u = true ->
                        planeEncoder u = lowercaseEncoder u).
  { intros u _ L. unfold planeEncoder, lowercaseEncoder. now rewrite L. }
  split; [ exact H | ].
  exact (proj1 (proj2 (addWord_asks_lowercase_only "Cat" (initialState [] [])
                         planeEncoder lowercaseEncoder H))).
Defined.

(** * More about distances and neighbours *)

Module NumberFacts.
Local Open Scope float_scope.

Lemma nan_is_nan : Prim2SF nan = S754_nan.
Proof. reflexivity. Qed.

Lemma add_nan_l x y : is_nan x = true -> is_nan (x + y) = true.
Proof.
  intros H. apply Binary64.is_nan_true in H. apply Binary64.is_nan_true.
  rewrite add_spec, H. reflexivity.
Qed.

Lemma add_nan_r x y : is_nan y = true -> is_nan (x + y) = true.
Proof.
  intros H. apply Binary64.is_nan_true in H. apply Binary64.is_nan_true.
  rewrite add_spec, H. now destruct (Prim2SF x).
Qed.

Lemma mul_nan_r x y : is_nan y = true -> is_nan (x * y) = true.
Proof.
  intros H. apply Binary64.is_nan_true in H. apply Binary64.is_nan_true.
  rewrite mul_spec, H. now destruct (Prim2SF x).
Qed.

Lemma div_nan_l x y : is_nan x = true -> is_nan (x / y) = true.
Proof.
  intros H. apply Binary64.is_nan_true in H. apply Binary64.is_nan_true.
  rewrite div_spec, H. reflexivity.
Qed.

Lemma sub_nan_r x y : is_nan y = true -> is_nan (x - y) = true.
Proof.
  intros H. apply Binary64.is_nan_true in H. apply Binary64.is_nan_true.
  rewrite sub_spec, H. now destruct (Prim2SF x).
Qed.

Lemma SFmul_comm x y : SF64mul x y = SF64mul y x.
Proof.
  unfold SF64mul, SFmul.
  destruct x as [ sx | sx | | sx mx ex ], y as [ sy | sy | | sy my ey ];
    try reflexivity; try (now rewrite xorb_comm).
  now rewrite xorb_comm, Pos.mul_comm, Z.add_comm.
Qed.

(** The product of two numbers does not depend on their order. *)
Lemma mul_comm x y : x * y = y * x.
Proof. apply Prim2SF_inj. rewrite !mul_spec. apply SFmul_comm. Qed.

Lemma ltb_irrefl x : (x <? x) = false.
Proof.
  destruct (x <? x) eqn:H; [ | reflexivity ].
  apply Binary64.ltb_key in H. destruct H as (_ & _ & L).
  apply Binary64.lex3_Lt in L. lia.
Qed.

End NumberFacts.

Module DistanceFacts.
Import ArrayFacts Ranking NumberFacts.
Local Open Scope float_scope.

Lemma cosineDistance_dot a b :
  cosineDistance a b = 1 - dotFrom b a 0 0 / (norm a * norm b).
Proof. reflexivity. Qed.

Lemma dotFrom_nan b a : forall i acc,
  is_nan acc = true -> is_nan (dotFrom b a i acc) = true.
Proof.
  unfold dotFrom. induction a as [ | v rest IH ]; intros i acc H;
    cbn [JS.reduce_from]; [ exact H | ].
  apply IH. now apply add_nan_l.
Qed.

(** Reading [b] beyond its end turns the sum into NaN. *)
Lemma dotFrom_beyond b a : forall i acc,
  (i <= List.length b < i + List.length a)%nat ->
  is_nan (dotFrom b a i acc) = true.
Proof.
  induction a as [ | v rest IH ]; intros i acc H; cbn [List.length] in H.
  - lia.
  - change (dotFrom b (v :: rest) i acc)
      with (dotFrom b rest (S i) (acc + v * JS.at_index b i)).
    destruct (Nat.le_gt_cases (List.length b) i) as [ Hout | Hin ].
    + apply dotFrom_nan, add_nan_r, mul_nan_r.
      unfold JS.at_index. now rewrite nth_overflow.
    + apply IH. lia.
Qed.

Lemma dotFrom_sym a : forall b pa pb acc,
  List.length a = List.length b -> List.length pa = List.length pb ->
  dotFrom (pb ++ b) a (List.length pa) acc
  = dotFrom (pa ++ a) b (List.length pb) acc.
Proof.
  induction a as [ | x a' IH ]; intros [ | y b' ] pa pb acc La Lp;
    try discriminate La; [ reflexivity | ].
  assert (Ey : JS.at_index (pb ++ y :: b') (List.length pa) = y).
  { unfold JS.at_index. rewrite Lp. apply nth_middle. }
  assert (Ex : JS.at_index (pa ++ x :: a') (List.length pb) = x).
  { unfold JS.at_index. rewrite <- Lp. apply nth_middle. }
  change (dotFrom (pb ++ y :: b') (x :: a') (List.length pa) acc)
    with (dotFrom (pb ++ y :: b') a' (S (List.length pa))
            (acc + x * JS.at_index (pb ++ y :: b') (List.length pa))).
  change (dotFrom (pa ++ x :: a') (y :: b') (List.length pb) acc)
    with (dotFrom (pa ++ x :: a') b' (S (List.length pb))
            (acc + y * JS.at_index (pa ++ x :: a') (List.length pb))).
  rewrite Ey, Ex, (mul_comm y x).
  replace (pb ++ y :: b') with ((pb ++ [y]) ++ b') by now rewrite <- app_assoc.
  replace (pa ++ x :: a') with ((pa ++ [x]) ++ a') by now rewrite <- app_assoc.
  replace (S (List.length pa)) with (List.length (pa ++ [x]))
    by (rewrite length_app; cbn; lia).
  replace (S (List.length pb)) with (List.length (pb ++ [y]))
    by (rewrite length_app; cbn; lia).
  apply IH; [ now injection La | rewrite !length_app; cbn; lia ].
Qed.

Lemma cosineDistance_beyond stored query :
  (List.length query < List.length stored)%nat ->
  is_nan (cosineDistance stored query) = true.
Proof.
  intros L. rewrite cosineDistance_dot.
  apply sub_nan_r, div_nan_l, dotFrom_beyond. lia.
Qed.

Lemma insert_nan x l :
  is_nan (distance x) = true -> JS.insert byDistance x l = x :: l.
Proof.
  intros H. destruct l as [ | y t ]; cbn [JS.insert]; [ reflexivity | ].
  unfold JS.placed_after, byDistance.
  now rewrite Binary64.sub_nan_not_positive by now left.
Qed.

(** Used below with a single item behind the NaN ones, where no comparison
    is positive. *)
Lemma sort_nan_prefix pre rest :
  Forall (fun x => is_nan (distance x) = true) pre ->
  JS.sort byDistance (pre ++ rest) = pre ++ JS.sort byDistance rest.
Proof.
  induction 1 as [ | x pre' Hx Hpre IH ]; [ reflexivity | ].
  cbn [app JS.sort fold_right]. fold (JS.sort byDistance (pre' ++ rest)).
  rewrite IH. now apply insert_nan.
Qed.

Lemma mapi_from_app {A B : Type} (f : A -> nat -> B) l1 : forall l2 i,
  JS.mapi_from f (l1 ++ l2) i
  = JS.mapi_from f l1 i ++ JS.mapi_from f l2 (i + List.length l1).
Proof.
  induction l1 as [ | x t IH ]; intros l2 i; cbn [app JS.mapi_from List.length].
  - now rewrite Nat.add_0_r.
  - rewrite IH. now replace (S i + List.length t)%nat with (i + S (List.length t))%nat by lia.
Qed.

Lemma firstn_seq k : forall start len,
  firstn k (seq start len) = seq start (Nat.min k len).
Proof.
  induction k as [ | k IH ]; intros start [ | len ]; cbn; try reflexivity.
  now rewrite IH.
Qed.

(** The ranking of all indices, when no distance is NaN. *)
Lemma ranking_sorted store query :
  (forall e, In e store -> is_nan (cosineDistance e query) = false) ->
  StronglySorted (ranksBefore store query) (map index (sortedItems store query)).
Proof.
  intros Hcmp. apply StronglySorted_map with (R := itemBefore).
  - intros x y Hx Hy. unfold itemBefore, ranksBefore.
    now rewrite (sortedItems_distance _ _ _ Hx), (sortedItems_distance _ _ _ Hy).
  - apply Sorted_StronglySorted; [ exact itemBefore_trans | ].
    apply sort_items_sorted. apply Forall_forall. intros d Hd.
    apply in_map_iff in Hd. destruct Hd as (e & <- & He). now apply Hcmp.
Qed.

Lemma ranksBefore_asym store query i j :
  ranksBefore store query i j -> ranksBefore store query j i -> False.
Proof.
  unfold ranksBefore. intros [L1 | [E1 I1]] [L2 | [E2 I2]].
  - pose proof (Binary64.ltb_trans _ _ _ L1 L2) as T.
    rewrite ltb_irrefl in T. discriminate.
  - pose proof (Binary64.ltb_eqb_trans _ _ _ L1 E2) as T.
    rewrite ltb_irrefl in T. discriminate.
  - pose proof (Binary64.eqb_ltb_trans _ _ _ E1 L2) as T.
    rewrite ltb_irrefl in T. discriminate.
  - lia.
Qed.

End DistanceFacts.

Module NeighbourFacts.
Import ArrayFacts Ranking NumberFacts DistanceFacts.
Local Open Scope float_scope.

Lemma firstn_In {A : Type} k (l : list A) x : In x (firstn k l) -> In x l.
Proof.
  intros H. rewrite <- (firstn_skipn k l). apply in_or_app. now left.
Qed.

Lemma firstn_NoDup {A : Type} k : forall l : list A, NoDup l -> NoDup (firstn k l).
Proof.
  induction k as [ | k IH ]; intros l H; [ constructor | ].
  destruct H as [ | x t Hx Ht ]; cbn [firstn]; constructor.
  - intros Hin. apply Hx. now apply firstn_In in Hin.
  - now apply IH.
Qed.

Lemma tl_In {A : Type} (l : list A) x : In x (tl l) -> In x l.
Proof. destruct l; [ trivial | now right ]. Qed.

Lemma tl_NoDup {A : Type} (l : list A) : NoDup l -> NoDup (tl l).
Proof. intros H. destruct H; [ constructor | assumption ]. Qed.

Lemma ranking_NoDup store query : NoDup (map index (sortedItems store query)).
Proof.
  apply (Permutation_NoDup (Permutation_sym (sortedItems_indices store query))).
  apply seq_NoDup.
Qed.

Lemma ranking_In store query i :
  In i (map index (sortedItems store query)) <-> (i < List.length store)%nat.
Proof.
  split; intros H.
  - apply (Permutation_in _ (sortedItems_indices store query)) in H.
    apply in_seq in H. lia.
  - apply (Permutation_in _ (Permutation_sym (sortedItems_indices store query))).
    apply in_seq. lia.
Qed.

(** With NaN in front of every item but the last, [sort] moves nothing. *)
Lemma sortedItems_nan_prefix others own query :
  (forall e, In e others -> is_nan (cosineDistance e query) = true) ->
  sortedItems (others ++ [own]) query
  = JS.mapi mkItem (map (fun e => cosineDistance e query) (others ++ [own])).
Proof.
  intros Hnan. unfold sortedItems, JS.mapi.
  rewrite map_app, mapi_from_app. rewrite sort_nan_prefix; [ reflexivity | ].
  apply Forall_forall. intros x Hx. apply mapi_from_In in Hx.
  destruct Hx as [B E]. rewrite E.
  assert (Hd : In (nth (index x - 0) (map (fun e => cosineDistance e query) others) nan)
                  (map (fun e => cosineDistance e query) others))
    by (apply nth_In; lia).
  apply in_map_iff in Hd. destruct Hd as (e & <- & He). now apply Hnan.
Qed.

End NeighbourFacts.

Section DistanceClaims.
Import ArrayFacts Ranking NumberFacts DistanceFacts NeighbourFacts.
Local Open Scope float_scope.

(** X7: for two vectors of the same length the distance does not depend on
    which of them is the stored one and which the query, bit for bit. *)
Theorem cosineDistance_symmetric a b :
  List.length a = List.length b -> cosineDistance a b = cosineDistance b a.
Proof.
  intros L. rewrite !cosineDistance_dot.
  pose proof (dotFrom_sym a b [] [] 0 L eq_refl) as D.
  cbn [app List.length] in D. rewrite D.
  now rewrite (mul_comm (norm a) (norm b)).
Qed.

Lemma cosineDistance_symmetric_pair :
  List.length [1; 2; 2] = List.length [3; 0; 4] /\
  cosineDistance [1; 2; 2] [3; 0; 4] = cosineDistance [3; 0; 4] [1; 2; 2].
Proof.
  split; [ reflexivity | ].
  exact (cosineDistance_symmetric [1; 2; 2] [3; 0; 4] eq_refl).
Defined.

(** X8: a stored vector with more components than the query has distance
    NaN: the sum of products reads the query beyond its end. *)
Theorem longer_stored_vector_is_nan stored query :
  (List.length query < List.length stored)%nat ->
  is_nan (cosineDistance stored query) = true.
Proof.
  exact (cosineDistance_beyond stored query).
Qed.

Lemma longer_stored_vector_is_nan_three_two :
  (List.length [1; 0] < List.length [1; 0; 0])%nat /\
  is_nan (cosineDistance [1; 0; 0] [1; 0]) = true.
Proof.
  assert (L : (List.length [1; 0] < List.length [1; 0; 0])%nat) by (cbn; lia).
  split; [ exact L | ].
  exact (longer_stored_vector_is_nan [1; 0; 0] [1; 0] L).
Defined.

(** X9: when every stored vector except the last has more components than
    the query (the last being, say, a fallback vector just added to a store
    of model vectors, and the query that vector), similarity plays no part:
    the neighbours are the indices 1, 2, ... in store order, up to [k] of
    them. *)
Theorem neighbours_of_shorter_query others own query k :
  (forall e, In e others -> (List.length query < List.length e)%nat) ->
  findNearestNeighbors (others ++ [own]) query k
  = seq 1 (Nat.min k (List.length others)).
Proof.
  intros Hlen. rewrite findNearestNeighbors_unfold.
  rewrite sortedItems_nan_prefix
    by (intros e He; now apply cosineDistance_beyond, Hlen).
  unfold JS.mapi. rewrite mapi_from_indices, length_map, length_app.
  cbn [List.length]. replace (List.length others + 1)%nat with (S (List.length others)) by lia.
  cbn [seq tl]. apply firstn_seq.
Qed.

Lemma neighbours_of_shorter_query_example :
  (forall e, In e [[1; 0; 0]; [0; 0; 1]; [0; 1; 0]] ->
             (List.length [0; 1] < List.length e)%nat) /\
  findNearestNeighbors ([[1; 0; 0]; [0; 0; 1]; [0; 1; 0]] ++ [[0; 1]]) [0; 1] 5
  = seq 1 (Nat.min 5 (List.length [[1; 0; 0]; [0; 0; 1]; [0; 1; 0]])).
Proof.
  assert (H : forall e, In e [[1; 0; 0]; [0; 0; 1]; [0; 1; 0]] ->
                        (List.length [0; 1] < List.length e)%nat).
  { intros e [ <- | [ <- | [ <- | [] ]]]; cbn; lia. }
  split; [ exact H | ].
  exact (neighbours_of_shorter_query _ [0; 1] [0; 1] 5 H).
Defined.

(** X10: whatever the vectors are, the result holds no index twice, only
    indices of stored vectors, and [min k (n - 1)] of them; for an empty
    store and for a single stored vector it is empty. *)
Theorem nearest_indices_are_valid store query k :
  NoDup (findNearestNeighbors store query k) /\
  (forall i, In i (findNearestNeighbors store query k) ->
             (i < List.length store)%nat) /\
  List.length (findNearestNeighbors store query k)
  = Nat.min k (List.length store - 1) /\
  ((List.length store <= 1)%nat -> findNearestNeighbors store query k = []).
Proof.
  split; [ | split; [ | split ]].
  - rewrite findNearestNeighbors_unfold.
    apply firstn_NoDup, tl_NoDup, ranking_NoDup.
  - intros i H. rewrite findNearestNeighbors_unfold in H.
    apply firstn_In, tl_In in H. now apply ranking_In in H.
  - apply nearest_length.
  - intros H. apply length_zero_iff_nil. rewrite nearest_length. lia.
Qed.

(** X11: the query's own index is left out whenever it ranks first: no
    distance is NaN, and every other stored vector is farther from the
    query than the vector at [own], or as far and stored later. *)
Theorem own_index_excluded_when_first store query k own :
  (forall e, In e store -> is_nan (cosineDistance e query) = false) ->
  (forall j, (j < List.length store)%nat -> j <> own ->
             ranksBefore store query own j) ->
  ~ In own (findNearestNeighbors store query k).
Proof.
  intros Hcmp Hfirst Hin.
  rewrite findNearestNeighbors_unfold in Hin. apply firstn_In in Hin.
  pose proof (ranking_sorted store query Hcmp) as Hs.
  pose proof (ranking_NoDup store query) as Hn.
  pose proof (ranking_In store query) as Hr.
  destruct (map index (sortedItems store query)) as [ | first rest ];
    [ contradiction | ].
  cbn [tl] in Hin.
  inversion Hs as [ | ? ? _ Hall ]; subst.
  inversion Hn as [ | ? ? Hnot _ ]; subst.
  rewrite Forall_forall in Hall.
  assert (Hne : first <> own) by (intros ->; contradiction).
  apply (ranksBefore_asym store query first own).
  - now apply Hall.
  - apply Hfirst; [ apply Hr; now left | exact Hne ].
Qed.

Lemma own_index_excluded_in_scenario :
  (forall e, In e scenarioStore -> is_nan (cosineDistance e [1; 0; 0]) = false) /\
  ~ In 0%nat (findNearestNeighbors scenarioStore [1; 0; 0] 2).
Proof.
  assert (H : forall e, In e scenarioStore ->
                        is_nan (cosineDistance e [1; 0; 0]) = false).
  { intros e [ <- | [ <- | [ <- | [] ]]]; vm_compute; reflexivity. }
  split; [ exact H | ].
  apply (own_index_excluded_when_first scenarioStore [1; 0; 0] 2 0 H).
  intros [ | [ | [ | j ]]] Hj Hne; [ now elim Hne | | | cbn in Hj; lia ];
    left; vm_compute; reflexivity.
Defined.

End DistanceClaims.

(** * What every run of the scene keeps *)

Module SceneFacts.
Import Validation Growth NeighbourFacts.

Lemma validateWord_same w st : sameScene st (snd (validateWord w st)).
Proof.
  unfold validateWord.
  destruct (JS.falsy (JS.trim w)); [ | destruct (negb (JS.test_only_letters w)) ];
    repeat split.
Qed.

Lemma addWord_model w st : model (addWord w st) = model st.
Proof.
  destruct (validateWord_same w st) as (_ & _ & _ & _ & _ & _ & M).
  rewrite M. unfold addWord. destruct (validateWord w st) as [ok st']. cbn [snd].
  destruct ok; cbn [negb]; [ | reflexivity ].
  destruct (model st') as [ encoder | ] eqn:E; [ | exact E ].
  destruct (encoder (JS.toLowerCase w)); exact E.
Qed.

Lemma fallbackAddWord_model Math_sin Math_cos w st :
  model (fallbackAddWord Math_sin Math_cos w st) = model st.
Proof.
  destruct (validateWord_same w st) as (_ & _ & _ & _ & _ & _ & M).
  rewrite M. unfold fallbackAddWord. destruct (validateWord w st) as [ok st'].
  cbn [snd]. destruct ok; reflexivity.
Qed.

Lemma addWord_highlight w st :
  highlightedWord (addWord w st) = highlightedWord st \/
  highlightedWord (addWord w st) = Some w.
Proof.
  destruct (validateWord_same w st) as (_ & _ & _ & _ & H & _).
  rewrite H. unfold addWord. destruct (validateWord w st) as [ok st']. cbn [snd].
  destruct ok; cbn [negb]; [ | now left ].
  destruct (model st') as [ encoder | ]; [ | now left ].
  destruct (encoder (JS.toLowerCase w)); [ now right | now left ].
Qed.

Lemma fallbackAddWord_highlight Math_sin Math_cos w st :
  highlightedWord (fallbackAddWord Math_sin Math_cos w st) = highlightedWord st \/
  highlightedWord (fallbackAddWord Math_sin Math_cos w st) = Some w.
Proof.
  destruct (validateWord_same w st) as (_ & _ & _ & _ & H & _).
  rewrite H. unfold fallbackAddWord. destruct (validateWord w st) as [ok st'].
  cbn [snd]. destruct ok; [ now right | now left ].
Qed.

Lemma onSelect_model w st : model (onSelect w st) = model st.
Proof.
  unfold onSelect. destruct (isHighlighted st w); [ reflexivity | ].
  cbv zeta.
  destruct (JS.indexOf (currentVocab (setHighlightedWord (Some w) st)) w)
    as [ idx | ]; [ | reflexivity ].
  destruct (nth_error (currentEmbeddings (setHighlightedWord (Some w) st)) idx);
    [ reflexivity | ].
  remember (currentEmbeddings (setHighlightedWord (Some w) st)) as stored.
  destruct stored; reflexivity.
Qed.

(** [onSelect] on the highlighted word, and on any other. *)
Lemma onSelect_on w st :
  isHighlighted st w = true ->
  onSelect w st = setNearestIndexes [] (setHighlightedWord None st).
Proof. intros H. unfold onSelect. now rewrite H. Qed.

Lemma onSelect_off w st :
  isHighlighted st w = false ->
  highlightedWord (onSelect w st) = Some w /\
  (nearestIndexes (onSelect w st) = nearestIndexes st \/
   nearestIndexes (onSelect w st) = [] \/
   exists embedding,
     nearestIndexes (onSelect w st)
     = findNearestNeighbors (currentEmbeddings st) embedding 5).
Proof.
  intros H. unfold onSelect. rewrite H. cbv zeta.
  destruct (JS.indexOf (currentVocab (setHighlightedWord (Some w) st)) w)
    as [ idx | ]; [ | split; [ reflexivity | now left ]].
  destruct (nth_error (currentEmbeddings (setHighlightedWord (Some w) st)) idx)
    as [ embedding | ].
  - split; [ reflexivity | ]. right. right. now exists embedding.
  - remember (currentEmbeddings (setHighlightedWord (Some w) st)) as stored.
    destruct stored; (split; [ reflexivity | ]); [ right; now left | now left ].
Qed.

Lemma isHighlighted_after w st :
  isHighlighted st w = false -> isHighlighted (onSelect w st) w = true.
Proof.
  intros H. unfold isHighlighted at 1.
  rewrite (proj1 (onSelect_off w st H)). apply String.eqb_refl.
Qed.

Lemma nearest_valid store query :
  List.length (findNearestNeighbors store query 5) <= 5 /\
  NoDup (findNearestNeighbors store query 5) /\
  Forall (fun i => i < List.length store) (findNearestNeighbors store query 5).
Proof.
  rewrite Ranking.findNearestNeighbors_unfold. repeat split.
  - rewrite length_firstn. lia.
  - apply firstn_NoDup, tl_NoDup, ranking_NoDup.
  - apply Forall_forall. intros i H.
    apply firstn_In, tl_In in H. now apply ranking_In in H.
Qed.

Lemma neighboursValid_grow a b :
  extends a b -> nearestIndexes b = nearestIndexes a ->
  neighboursValid a -> neighboursValid b.
Proof.
  intros (words & vectors & _ & _ & V) N (L & D & F).
  unfold neighboursValid. rewrite N, V. repeat split; try assumption.
  eapply Forall_impl; [ | exact F ]. cbn. intros i Hi.
  rewrite length_app. lia.
Qed.

Lemma onSelect_valid w st : neighboursValid st -> neighboursValid (onSelect w st).
Proof.
  intros V. destruct (isHighlighted st w) eqn:H.
  - rewrite (onSelect_on w st H). repeat split; cbn; [ lia | constructor | constructor ].
  - destruct (onSelect_store w st) as [_ E].
    destruct (onSelect_off w st H) as [_ [ N | [ N | (embedding & N) ]]];
      unfold neighboursValid; rewrite N, E.
    + exact V.
    + repeat split; cbn; [ lia | constructor | constructor ].
    + apply nearest_valid.
Qed.

Lemma step_cells_load Math_sin Math_cos rt ev :
  (ev = Render \/ (exists e, ev = LoadResolved e) \/ ev = LoadRejected) ->
  currentVocab (cells (step Math_sin Math_cos rt ev)) = currentVocab (cells rt) /\
  currentEmbeddings (cells (step Math_sin Math_cos rt ev))
  = currentEmbeddings (cells rt) /\
  highlightedWord (cells (step Math_sin Math_cos rt ev)) = highlightedWord (cells rt) /\
  nearestIndexes (cells (step Math_sin Math_cos rt ev)) = nearestIndexes (cells rt).
Proof.
  intros [ -> | [ (e & ->) | -> ]]; cbn [step].
  - unfold render. destruct (sameDeps _ _); [ repeat split | ].
    unfold loadUSEModel. cbn [cells].
    destruct (negb _ && negb _); repeat split.
  - unfold loadSettled. destruct (pendingLoads rt); repeat split.
  - unfold loadSettled. destruct (pendingLoads rt); repeat split.
Qed.

Lemma step_valid Math_sin Math_cos rt ev :
  neighboursValid (cells rt) ->
  neighboursValid (cells (step Math_sin Math_cos rt ev)).
Proof.
  intros V.
  assert (Same : forall st', currentEmbeddings st' = currentEmbeddings (cells rt) ->
                             nearestIndexes st' = nearestIndexes (cells rt) ->
                             neighboursValid st').
  { intros st' E N. unfold neighboursValid. now rewrite N, E. }
  destruct ev as [ | encoder | | | value | | | word ].
  1: destruct (step_cells_load Math_sin Math_cos rt Render (or_introl eq_refl))
       as (_ & E & _ & N); now apply Same.
  1: destruct (step_cells_load Math_sin Math_cos rt (LoadResolved encoder)
                 (or_intror (or_introl (ex_intro _ encoder eq_refl))))
       as (_ & E & _ & N); now apply Same.
  1: destruct (step_cells_load Math_sin Math_cos rt LoadRejected
                 (or_intror (or_intror eq_refl)))
       as (_ & E & _ & N); now apply Same.
  all: cbn [step onCells cells].
  - now apply Same.
  - now apply Same.
  - unfold handleAddWord. destruct (model (cells rt)).
    + eapply neighboursValid_grow; [ apply addWord_extends | | exact V ].
      apply adding_keeps_nearestIndexes; exact (fun x => x).
    + eapply neighboursValid_grow; [ apply fallbackAddWord_extends | | exact V ].
      apply (adding_keeps_nearestIndexes Math_sin Math_cos).
  - now apply Same.
  - now apply onSelect_valid.
Qed.

Lemma step_idle Math_sin Math_cos rt ev :
  idleIsClear (cells rt) -> idleIsClear (cells (step Math_sin Math_cos rt ev)).
Proof.
  intros C.
  assert (Same : forall st', highlightedWord st' = highlightedWord (cells rt) ->
                             nearestIndexes st' = nearestIndexes (cells rt) ->
                             idleIsClear st').
  { intros st' H N. unfold idleIsClear. now rewrite N, H. }
  destruct ev as [ | encoder | | | value | | | word ].
  1: destruct (step_cells_load Math_sin Math_cos rt Render (or_introl eq_refl))
       as (_ & _ & H & N); now apply Same.
  1: destruct (step_cells_load Math_sin Math_cos rt (LoadResolved encoder)
                 (or_intror (or_introl (ex_intro _ encoder eq_refl))))
       as (_ & _ & H & N); now apply Same.
  1: destruct (step_cells_load Math_sin Math_cos rt LoadRejected
                 (or_intror (or_intror eq_refl)))
       as (_ & _ & H & N); now apply Same.
  all: cbn [step onCells cells].
  - now apply Same.
  - now apply Same.
  - unfold handleAddWord, idleIsClear. destruct (model (cells rt)).
    + rewrite (proj1 (adding_keeps_nearestIndexes (fun x => x) (fun x => x) _ _)).
      destruct (addWord_highlight (inputValue (cells rt)) (cells rt)) as [ E | E ];
        rewrite E; [ exact C | discriminate ].
    + rewrite (proj2 (adding_keeps_nearestIndexes Math_sin Math_cos _ _)).
      destruct (fallbackAddWord_highlight Math_sin Math_cos
                  (inputValue (cells rt)) (cells rt)) as [ E | E ];
        rewrite E; [ exact C | discriminate ].
  - now apply Same.
  - unfold idleIsClear. destruct (isHighlighted (cells rt) word) eqn:H.
    + now rewrite (onSelect_on word (cells rt) H).
    + rewrite (proj1 (onSelect_off word (cells rt) H)). discriminate.
Qed.

Lemma run_keeps Math_sin Math_cos (P : State -> Prop) :
  (forall rt ev, P (cells rt) -> P (cells (step Math_sin Math_cos rt ev))) ->
  forall trace rt, P (cells rt) -> P (cells (run Math_sin Math_cos rt trace)).
Proof.
  intros Hstep. induction trace as [ | ev rest IH ]; intros rt H;
    cbn [run fold_left]; [ exact H | ].
  apply IH, Hstep, H.
Qed.

Lemma neighbourLines_length st coordCount :
  List.length (neighbourLines st coordCount) <= List.length (nearestIndexes st).
Proof.
  unfold neighbourLines. destruct (highlightedWord st) as [ active | ]; [ | cbn; lia ].
  destruct (JS.falsy active); [ cbn; lia | ].
  destruct (JS.indexOf (currentVocab st) active) as [ hi | ];
    induction (nearestIndexes st) as [ | i t IH ]; cbn [flat_map List.length];
    try lia; rewrite length_app.
  - destruct ((hi <? coordCount) && (i <? coordCount)); cbn [List.length]; lia.
  - cbn [List.length]. lia.
Qed.

End SceneFacts.

Section SceneClaims.
Import Validation Growth Loading NeighbourFacts SceneFacts.
Variables Math_sin Math_cos : JS.number -> JS.number.

(** X12: when the props bring one vector per word, every run of the
    component keeps one vector per word. *)
Theorem words_and_vectors_stay_aligned rt trace :
  List.length (currentVocab (cells rt))
  = List.length (currentEmbeddings (cells rt)) ->
  List.length (currentVocab (cells (run Math_sin Math_cos rt trace)))
  = List.length (currentEmbeddings (cells (run Math_sin Math_cos rt trace))).
Proof.
  intros H.
  destruct (run_extends Math_sin Math_cos trace rt) as (words & vectors & L & W & V).
  rewrite W, V, !length_app. lia.
Qed.

(** X13: in every run from the mounted scene the neighbour list holds at
    most five indices, none twice, each the index of a stored vector; so at
    most five lines are drawn. *)
Theorem neighbours_stay_valid vocab embeddings trace coordCount :
  neighboursValid (cells (run Math_sin Math_cos (mount vocab embeddings) trace)) /\
  List.length
    (neighbourLines (cells (run Math_sin Math_cos (mount vocab embeddings) trace))
       coordCount) <= 5.
Proof.
  assert (V : neighboursValid
                (cells (run Math_sin Math_cos (mount vocab embeddings) trace))).
  { apply (run_keeps Math_sin Math_cos neighboursValid).
    - intros rt ev. apply step_valid.
    - repeat split; cbn; [ lia | constructor | constructor ]. }
  split; [ exact V | ].
  destruct V as (L & _).
  pose proof (neighbourLines_length
                (cells (run Math_sin Math_cos (mount vocab embeddings) trace))
                coordCount). lia.
Qed.

(** X14: in every run from the mounted scene, when no word is highlighted
    the neighbour list is empty: no point is drawn highlighted and no line
    is drawn. *)
Theorem idle_scene_is_clear vocab embeddings trace :
  highlightedWord (cells (run Math_sin Math_cos (mount vocab embeddings) trace))
  = None ->
  nearestIndexes (cells (run Math_sin Math_cos (mount vocab embeddings) trace)) = [] /\
  (forall i,
     pointHighlighted
       (cells (run Math_sin Math_cos (mount vocab embeddings) trace)) i = false) /\
  (forall coordCount,
     neighbourLines
       (cells (run Math_sin Math_cos (mount vocab embeddings) trace)) coordCount = []).
Proof.
  intros H.
  assert (C : idleIsClear
                (cells (run Math_sin Math_cos (mount vocab embeddings) trace))).
  { apply (run_keeps Math_sin Math_cos idleIsClear).
    - intros rt ev. apply step_idle.
    - intros _. reflexivity. }
  specialize (C H). split; [ exact C | ]. split.
  - intros i. unfold pointHighlighted. rewrite C, H.
    now destruct (nth_error _ i).
  - intros coordCount. unfold neighbourLines. now rewrite H.
Qed.

(** X15: a click on a word that is not highlighted highlights it, whether
    or not it is in the vocabulary; when it is not in the vocabulary the
    neighbour list is left as it was; and a second click on it right after
    clears the highlight and the neighbours. *)
Theorem click_then_click_clears w st :
  isHighlighted st w = false ->
  highlightedWord (onSelect w st) = Some w /\
  (JS.indexOf (currentVocab st) w = None ->
   nearestIndexes (onSelect w st) = nearestIndexes st) /\
  highlightedWord (onSelect w (onSelect w st)) = None /\
  nearestIndexes (onSelect w (onSelect w st)) = [].
Proof.
  intros H. split; [ apply (onSelect_off w st H) | ]. split.
  - intros N. unfold onSelect. rewrite H. cbv zeta.
    cbn [currentVocab setHighlightedWord]. now rewrite N.
  - rewrite (onSelect_on w (onSelect w st) (isHighlighted_after w st H)).
    split; reflexivity.
Qed.

Lemma step_quiet rt ev :
  loadedIsQuiet rt -> loadedIsQuiet (step Math_sin Math_cos rt ev).
Proof.
  intros [G Q]. split; [ now apply step_guarded | ].
  destruct ev as [ | encoder | | | value | | | word ]; cbn [step].
  - unfold render. destruct (sameDeps _ _); [ exact Q | ].
    unfold loadUSEModel. cbn [cells].
    destruct (negb (hasModel (cells rt)) && negb (isModelLoading (cells rt))) eqn:Gd.
    + intros D. change (hasModel (cells rt) = true) in D.
      rewrite D in Gd. discriminate.
    + exact Q.
  - destruct G as [Hle _]. unfold loadSettled.
    destruct (pendingLoads rt) as [ | p ] eqn:P; [ now rewrite P | ].
    intros _. cbn [pendingLoads]. lia.
  - destruct G as [Hle _]. unfold loadSettled.
    destruct (pendingLoads rt) as [ | p ] eqn:P; [ now rewrite P | ].
    intros _. cbn [pendingLoads]. lia.
  - exact Q.
  - exact Q.
  - cbn [onCells cells pendingLoads]. unfold hasModel, handleAddWord in *.
    destruct (model (cells rt)) eqn:M.
    + now rewrite addWord_model, M.
    + now rewrite fallbackAddWord_model, M.
  - exact Q.
  - cbn [onCells cells pendingLoads]. unfold hasModel in *.
    now rewrite onSelect_model.
Qed.

Lemma step_with_model rt ev :
  loadedIsQuiet rt -> hasModel (cells rt) = true ->
  model (cells (step Math_sin Math_cos rt ev)) = model (cells rt) /\
  loadCalls (step Math_sin Math_cos rt ev) = loadCalls rt.
Proof.
  intros [_ Q] M. specialize (Q M).
  destruct ev as [ | encoder | | | value | | | word ]; cbn [step].
  - unfold render. destruct (sameDeps _ _); [ now split | ].
    unfold loadUSEModel. cbn [cells]. rewrite M. now split.
  - unfold loadSettled. rewrite Q. now split.
  - unfold loadSettled. rewrite Q. now split.
  - now split.
  - now split.
  - cbn [onCells cells loadCalls]. split; [ | reflexivity ].
    unfold handleAddWord. destruct (model (cells rt)) eqn:E; rewrite <- E;
      [ apply addWord_model | apply fallbackAddWord_model ].
  - now split.
  - cbn [onCells cells loadCalls]. split; [ apply onSelect_model | reflexivity ].
Qed.

Lemma run_with_model trace : forall rt,
  loadedIsQuiet rt -> hasModel (cells rt) = true ->
  model (cells (run Math_sin Math_cos rt trace)) = model (cells rt) /\
  loadCalls (run Math_sin Math_cos rt trace) = loadCalls rt.
Proof.
  induction trace as [ | ev rest IH ]; intros rt Q M; cbn [run fold_left];
    [ now split | ].
  destruct (step_with_model rt ev Q M) as [Em Ec].
  assert (M' : hasModel (cells (step Math_sin Math_cos rt ev)) = true)
    by (unfold hasModel in *; now rewrite Em).
  destruct (IH _ (step_quiet rt ev Q) M') as [Em' Ec'].
  unfold run in *. split; congruence.
Qed.

Lemma run_quiet trace : forall rt,
  loadedIsQuiet rt -> loadedIsQuiet (run Math_sin Math_cos rt trace).
Proof.
  induction trace as [ | ev rest IH ]; intros rt Q; cbn [run fold_left];
    [ exact Q | ].
  now apply IH, step_quiet.
Qed.

(** X16: once the model has arrived it stays.  In every run from the
    mounted scene, after a moment at which the model is set, whatever
    happens next, [use.load()] is not called again and the model is the
    same encoder. *)
Theorem loaded_model_is_final vocab embeddings before after :
  hasModel (cells (run Math_sin Math_cos (mount vocab embeddings) before)) = true ->
  loadCalls (run Math_sin Math_cos (mount vocab embeddings) (before ++ after))
  = loadCalls (run Math_sin Math_cos (mount vocab embeddings) before) /\
  model (cells (run Math_sin Math_cos (mount vocab embeddings) (before ++ after)))
  = model (cells (run Math_sin Math_cos (mount vocab embeddings) before)).
Proof.
  intros M.
  assert (Q : loadedIsQuiet (run Math_sin Math_cos (mount vocab embeddings) before)).
  { apply run_quiet. split; [ split; cbn; [ lia | discriminate ] | ].
    cbn. discriminate. }
  replace (run Math_sin Math_cos (mount vocab embeddings) (before ++ after))
    with (run Math_sin Math_cos
            (run Math_sin Math_cos (mount vocab embeddings) before) after)
    by (unfold run; now rewrite fold_left_app).
  destruct (run_with_model after _ Q M) as [Em Ec]. now split.
Qed.

End SceneClaims.

Lemma words_and_vectors_stay_aligned_example :
  List.length (currentVocab (cells (mount ["sun"; "moon"]%string [[1; 0]; [0; 1]]%float)))
  = List.length
      (currentEmbeddings (cells (mount ["sun"; "moon"]%string [[1; 0]; [0; 1]]%float))) /\
  List.length
    (currentVocab
       (cells (run sinSeries cosSeries (mount ["sun"; "moon"]%string [[1; 0]; [0; 1]]%float)
                 [ChangeInput "sky"; ClickAdd])))
  = List.length
      (currentEmbeddings
         (cells (run sinSeries cosSeries
                   (mount ["sun"; "moon"]%string [[1; 0]; [0; 1]]%float)
                   [ChangeInput "sky"; ClickAdd]))).
Proof.
  split; [ reflexivity | ].
  exact (words_and_vectors_stay_aligned sinSeries cosSeries
           (mount ["sun"; "moon"]%string [[1; 0]; [0; 1]]%float)
           [ChangeInput "sky"; ClickAdd] eq_refl).
Defined.

Lemma idle_scene_is_clear_example :
  highlightedWord
    (cells (run sinSeries cosSeries (mount ["sun"; "moon"]%string [[1; 0]; [0; 1]]%float)
              [ClickWord "sun"; ClickWord "sun"])) = None /\
  nearestIndexes
    (cells (run sinSeries cosSeries (mount ["sun"; "moon"]%string [[1; 0]; [0; 1]]%float)
              [ClickWord "sun"; ClickWord "sun"])) = [].
Proof.
  split; [ reflexivity | ].
  exact (proj1 (idle_scene_is_clear sinSeries cosSeries
                  ["sun"; "moon"]%string [[1; 0]; [0; 1]]%float
                  [ClickWord "sun"; ClickWord "sun"] eq_refl)).
Defined.

Lemma click_then_click_clears_example :
  isHighlighted skyState "moon" = false /\
  highlightedWord (onSelect "moon" (onSelect "moon" skyState)) = None /\
  nearestIndexes (onSelect "moon" (onSelect "moon" skyState)) = [].
Proof.
  split; [ reflexivity | ].
  exact (proj2 (proj2 (click_then_click_clears "moon" skyState eq_refl))).
Defined.

Lemma loaded_model_is_final_example :
  hasModel
    (cells (run sinSeries cosSeries (mount [] [])
              [Render; Render; LoadResolved planeEncoder])) = true /\
  loadCalls
    (run sinSeries cosSeries (mount [] [])
       ([Render; Render; LoadResolved planeEncoder] ++ [Render; LoadRejected; Render]))
  = loadCalls
      (run sinSeries cosSeries (mount [] [])
         [Render; Render; LoadResolved planeEncoder]).
Proof.
  split; [ reflexivity | ].
  exact (proj1 (loaded_model_is_final sinSeries cosSeries [] []
                  [Render; Render; LoadResolved planeEncoder]
                  [Render; LoadRejected; Render] eq_refl)).
Defined.

(** * The hook that loads the initial embeddings *)

Module HookFacts.
Import UseEmbeddings.

Lemma cleanup_snoc l c :
  cleanup (l ++ [c]) = l ++ [{| mounted := false; pending := pending c |}].
Proof.
  unfold cleanup. rewrite rev_app_distr. cbn [rev app].
  now rewrite rev_involutive.
Qed.

Lemma cleanup_unmounted l :
  onlyLatestMounted l -> Forall (fun c => mounted c = false) (cleanup l).
Proof.
  destruct l as [ | c l' _ ] using rev_ind; intros H; [ constructor | ].
  rewrite cleanup_snoc. apply Forall_app. split; [ | now repeat constructor ].
  apply Forall_forall. intros x Hx.
  destruct (In_nth_error _ _ Hx) as [i Hi].
  destruct (mounted x) eqn:M; [ | reflexivity ].
  assert (Hlt : i < List.length l') by (apply nth_error_Some; congruence).
  specialize (H i x). rewrite nth_error_app1 in H by assumption.
  specialize (H Hi M). rewrite length_app in H. cbn in H. lia.
Qed.

Lemma unmounted_onlyLatest l :
  Forall (fun c => mounted c = false) l -> onlyLatestMounted l.
Proof.
  intros F i c Hi M. rewrite Forall_forall in F.
  apply nth_error_In in Hi. rewrite (F _ Hi) in M. discriminate.
Qed.

Lemma update_length l : forall i f, List.length (update l i f) = List.length l.
Proof.
  induction l as [ | c t IH ]; intros [ | i ] f; cbn; try reflexivity.
  now rewrite IH.
Qed.

Lemma update_nth_error l : forall i j f c,
  nth_error (update l j f) i = Some c ->
  exists c0, nth_error l i = Some c0 /\ (c = c0 \/ c = f c0).
Proof.
  induction l as [ | x t IH ]; intros [ | i ] [ | j ] f c; cbn; try discriminate.
  - intros E. injection E as <-. exists x. split; [ reflexivity | now right ].
  - intros E. injection E as <-. exists x. split; [ reflexivity | now left ].
  - intros E. exists c. split; [ exact E | now left ].
  - apply IH.
Qed.

Lemma update_onlyLatest l j :
  onlyLatestMounted l ->
  onlyLatestMounted
    (update l j (fun c => {| mounted := mounted c; pending := false |})).
Proof.
  intros H i c Hi M. rewrite update_length.
  destruct (update_nth_error _ _ _ _ _ Hi) as (c0 & H0 & [ -> | -> ]);
    now apply (H i c0).
Qed.

Lemma step_onlyLatest h ev :
  onlyLatestMounted (chains h) -> onlyLatestMounted (chains (step h ev)).
Proof.
  intros H. destruct ev as [ | | i array | i ]; cbn [step chains].
  - pose proof (cleanup_unmounted _ H) as F.
    intros i c Hi M. rewrite length_app. cbn [List.length].
    destruct (Nat.lt_ge_cases i (List.length (cleanup (chains h)))) as [ Hlt | Hge ].
    + rewrite nth_error_app1 in Hi by assumption.
      rewrite Forall_forall in F. apply nth_error_In in Hi.
      rewrite (F _ Hi) in M. discriminate.
    + assert (Hs : i < List.length (cleanup (chains h) ++ [{| mounted := true; pending := true |}]))
        by (apply nth_error_Some; congruence).
      rewrite length_app in Hs. cbn in Hs. lia.
  - now apply unmounted_onlyLatest, cleanup_unmounted.
  - destruct (nth_error (chains h) i) as [ c | ]; [ | exact H ].
    destruct (pending c); [ | exact H ].
    cbn [chains]. now apply update_onlyLatest.
  - now apply update_onlyLatest.
Qed.

Lemma run_onlyLatest trace : forall h,
  onlyLatestMounted (chains h) -> onlyLatestMounted (chains (run h trace)).
Proof.
  induction trace as [ | ev rest IH ]; intros h H; cbn [run fold_left];
    [ exact H | ].
  now apply IH, step_onlyLatest.
Qed.

Lemma initial_onlyLatest : onlyLatestMounted (chains initial).
Proof. intros [ | i ] c Hi; discriminate Hi. Qed.

Lemma fulfilled_unmounted h i array :
  (forall c, nth_error (chains h) i = Some c -> mounted c = false) ->
  embeddings (step h (Fulfilled i array)) = embeddings h.
Proof.
  intros H. cbn [step].
  destruct (nth_error (chains h) i) as [ c | ]; [ | reflexivity ].
  destruct (pending c); [ | reflexivity ].
  cbn [embeddings]. now rewrite (H c eq_refl).
Qed.

Lemma step_keeps_embeddings h ev :
  isFulfilled ev = false -> embeddings (step h ev) = embeddings h.
Proof. destruct ev; [ reflexivity | reflexivity | discriminate | reflexivity ]. Qed.

Lemma step_keeps_set h ev :
  embeddings h <> None -> embeddings (step h ev) <> None.
Proof.
  intros H. destruct ev as [ | | i array | i ]; cbn [step embeddings]; try exact H.
  destruct (nth_error (chains h) i) as [ c | ]; [ | exact H ].
  destruct (pending c); [ | exact H ].
  cbn [embeddings]. destruct (mounted c); [ discriminate | exact H ].
Qed.

End HookFacts.

Section HookClaims.
Import UseEmbeddings HookFacts.

(** X17: the hook's [mounted] flag does what it is for.  In every run of the
    hook, the result of a run of the effect that is not the latest one is
    dropped, and so is every result that arrives after the component was
    unmounted: [embeddings] stays as it was. *)
Theorem stale_embeddings_are_dropped trace i array :
  S i < List.length (chains (run initial trace)) ->
  embeddings (step (run initial trace) (Fulfilled i array))
  = embeddings (run initial trace) /\
  (forall j,
     embeddings (run (run initial trace) [Unmounted; Fulfilled j array])
     = embeddings (run initial trace)).
Proof.
  intros Hi.
  pose proof (run_onlyLatest trace initial initial_onlyLatest) as H.
  split.
  - apply fulfilled_unmounted. intros c Hc.
    destruct (mounted c) eqn:M; [ | reflexivity ].
    specialize (H i c Hc M). lia.
  - intros j. cbn [run fold_left].
    rewrite fulfilled_unmounted; [ reflexivity | ].
    intros c Hc. cbn [step chains] in Hc.
    pose proof (cleanup_unmounted _ H) as F. rewrite Forall_forall in F.
    apply F. now apply nth_error_In in Hc.
Qed.

(** X18: the page shows the loading text until a chain of the hook is
    fulfilled: rejections, further runs of the effect and unmounting never
    set [embeddings], and nothing retries a failed load.  Once set,
    [embeddings] is never [null] again. *)
Theorem page_waits_for_embeddings words trace :
  forallb (fun ev => negb (isFulfilled ev)) trace = true ->
  Page words (run initial trace) = LoadingEmbeddings /\
  (forall h later,
     embeddings h <> None -> embeddings (run h later) <> None).
Proof.
  intros Hno. split.
  - assert (E : forall h, embeddings (run h trace) = embeddings h).
    { induction trace as [ | ev rest IH ]; intros h; cbn [run fold_left];
        [ reflexivity | ].
      cbn [forallb] in Hno. apply andb_prop in Hno. destruct Hno as [Hev Hrest].
      unfold run in IH. rewrite (IH Hrest).
      apply step_keeps_embeddings. now destruct (isFulfilled ev). }
    unfold Page. now rewrite E.
  - intros h later. revert h.
    induction later as [ | ev rest IH ]; intros h H; cbn [run fold_left];
      [ exact H | ].
    now apply IH, step_keeps_set.
Qed.

End HookClaims.

Lemma stale_embeddings_are_dropped_example :
  S 0 < List.length
          (UseEmbeddings.chains
             (UseEmbeddings.run UseEmbeddings.initial
                [UseEmbeddings.EffectRuns; UseEmbeddings.EffectRuns])) /\
  UseEmbeddings.embeddings
    (UseEmbeddings.step
       (UseEmbeddings.run UseEmbeddings.initial
          [UseEmbeddings.EffectRuns; UseEmbeddings.EffectRuns])
       (UseEmbeddings.Fulfilled 0 [[1; 0]]%float))
  = None.
Proof.
  assert (L : S 0 < List.length
                      (UseEmbeddings.chains
                         (UseEmbeddings.run UseEmbeddings.initial
                            [UseEmbeddings.EffectRuns; UseEmbeddings.EffectRuns])))
    by (cbn; lia).
  split; [ exact L | ].
  exact (proj1 (stale_embeddings_are_dropped
                  [UseEmbeddings.EffectRuns; UseEmbeddings.EffectRuns]
                  0 [[1; 0]]%float L)).
Defined.

Lemma page_waits_for_embeddings_example :
  forallb (fun ev => negb (isFulfilled ev))
    [UseEmbeddings.EffectRuns; UseEmbeddings.Rejected 0] = true /\
  UseEmbeddings.Page ["sun"]%string
    (UseEmbeddings.run UseEmbeddings.initial
       [UseEmbeddings.EffectRuns; UseEmbeddings.Rejected 0])
  = UseEmbeddings.LoadingEmbeddings.
Proof.
  split; [ reflexivity | ].
  exact (proj1 (page_waits_for_embeddings ["sun"]%string
                  [UseEmbeddings.EffectRuns; UseEmbeddings.Rejected 0] eq_refl)).
Defined.

(** * Rankings that the comparator leaves alone *)

Module StoreOrder.
Import ArrayFacts Ranking NumberFacts DistanceFacts NeighbourFacts.
Local Open Scope float_scope.

(** An array on which no comparison is positive is returned as it is. *)
Lemma sort_no_order {A : Type} (comparefn : A -> A -> JS.number) l :
  (forall x y, In x l -> In y l -> JS.placed_after (comparefn x y) = false) ->
  JS.sort comparefn l = l.
Proof.
  induction l as [ | x t IH ]; intros H; [ reflexivity | ].
  unfold JS.sort in *. cbn [fold_right].
  rewrite IH by (intros a b Ha Hb; apply H; now right).
  destruct t as [ | y r ]; [ reflexivity | ]. cbn [JS.insert].
  rewrite H; [ reflexivity | now left | right; now left ].
Qed.

Lemma equal_not_positive x y : (x =? y) = true -> (0 <? x - y) = false.
Proof.
  intros E. apply Binary64.eqb_key in E. destruct E as (Hx & Hy & K).
  rewrite Binary64.sub_positive by assumption.
  destruct (y <? x) eqn:L; [ | reflexivity ].
  apply Binary64.ltb_key in L. destruct L as (_ & _ & L).
  assert (Q : lex3 (key y) (key x) = Eq)
    by (apply Binary64.lex3_Eq; congruence).
  congruence.
Qed.

Lemma unordered_sortedItems store query :
  unordered store query ->
  sortedItems store query
  = JS.mapi mkItem (map (fun e => cosineDistance e query) store).
Proof.
  intros U. unfold sortedItems. apply sort_no_order.
  assert (D : forall x,
             In x (JS.mapi mkItem (map (fun e => cosineDistance e query) store)) ->
             exists e, In e store /\ distance x = cosineDistance e query).
  { intros x Hx. unfold JS.mapi in Hx. apply mapi_from_In in Hx.
    destruct Hx as [B E]. rewrite length_map in B.
    assert (Hd : In (nth (index x - 0) (map (fun e => cosineDistance e query) store) nan)
                    (map (fun e => cosineDistance e query) store))
      by (apply nth_In; rewrite length_map; lia).
    rewrite <- E in Hd. apply in_map_iff in Hd.
    destruct Hd as (e & He & Hin). now exists e. }
  intros x y Hx Hy.
  destruct (D x Hx) as (e & He & Ex), (D y Hy) as (e' & He' & Ey).
  unfold JS.placed_after, byDistance. rewrite Ex, Ey.
  destruct (U e e' He He') as [ N | [ N | E ]].
  - apply Binary64.sub_nan_not_positive. now left.
  - apply Binary64.sub_nan_not_positive. now right.
  - now apply equal_not_positive.
Qed.

(** The neighbours are then the indices 1, 2, ... in store order. *)
Lemma unordered_nearest store query k :
  unordered store query ->
  findNearestNeighbors store query k
  = seq 1 (Nat.min k (List.length store - 1)).
Proof.
  intros U. rewrite findNearestNeighbors_unfold, (unordered_sortedItems _ _ U).
  unfold JS.mapi. rewrite mapi_from_indices, length_map.
  destruct (List.length store) as [ | n ]; cbn [seq tl].
  - now rewrite firstn_nil, Nat.min_0_r.
  - rewrite Nat.sub_succ, Nat.sub_0_r. apply firstn_seq.
Qed.

(** A vector with a NaN distance joins a store without ordering it. *)
Lemma unordered_with_nan before a after query :
  is_nan (cosineDistance a query) = true ->
  unordered (before ++ after) query ->
  unordered (before ++ a :: after) query.
Proof.
  intros N U e e' He He'.
  assert (S : forall v, In v (before ++ a :: after) ->
                        v = a \/ In v (before ++ after)).
  { intros v Hv. apply in_app_or in Hv. destruct Hv as [ Hv | [ Hv | Hv ]].
    - right. apply in_or_app. now left.
    - now left.
    - right. apply in_or_app. now right. }
  destruct (S e He) as [ -> | Ie ]; [ now left | ].
  destruct (S e' He') as [ -> | Ie' ]; [ right; now left | ].
  now apply U.
Qed.

End StoreOrder.

Section ZeroNormClaims.
Import StoreOrder.
Local Open Scope float_scope.

(** C7 (amended): with a zero norm on either side [cosineDistance] still
    returns a number, and that number is NaN or an infinity.  A NaN distance
    is not ranked last: against every other item the comparator's result is
    not positive in either direction, which [sort] reads as "equal".  Where
    the comparator orders no two of the other stored vectors either (their
    distances are NaN or equal), every comparison is "equal", the sort
    keeps the store order, and the neighbours are the indices 1, 2, ... up
    to [k]: the candidate with the NaN distance, stored at an index from 1
    on, keeps its place before every candidate stored behind it, whatever
    their distances. *)
Theorem zero_norm_distance_unordered a b :
  (norm a =? 0) = true \/ (norm b =? 0) = true ->
  is_finite (cosineDistance a b) = false /\
  (is_nan (cosineDistance a b) = true ->
   (forall x y : Item,
      distance x = cosineDistance a b ->
      JS.placed_after (byDistance x y) = false /\
      JS.placed_after (byDistance y x) = false) /\
   (forall before after k,
      unordered (before ++ after) b ->
      findNearestNeighbors (before ++ a :: after) b k
      = seq 1 (Nat.min k (List.length before + List.length after)) /\
      (forall j,
         (1 <= List.length before)%nat ->
         (List.length before < j <= List.length before + List.length after)%nat ->
         (j <= k)%nat ->
         nth_error (findNearestNeighbors (before ++ a :: after) b k)
           (List.length before - 1) = Some (List.length before) /\
         nth_error (findNearestNeighbors (before ++ a :: after) b k) (j - 1)
         = Some j))).
Proof.
  intros Hz. split.
  - now apply Binary64.zero_norm_quotient.
  - intros Hnan. split.
    + intros x y Hx. unfold JS.placed_after, byDistance.
      split; apply Binary64.sub_nan_not_positive; rewrite Hx; auto.
    + intros before after k U.
      assert (E : findNearestNeighbors (before ++ a :: after) b k
                  = seq 1 (Nat.min k (List.length before + List.length after))).
      { rewrite (unordered_nearest _ b k (unordered_with_nan _ _ _ _ Hnan U)).
        rewrite length_app. cbn [List.length]. f_equal. f_equal. lia. }
      split; [ exact E | ].
      intros j Hb Hj Hk. rewrite E.
      assert (P : forall i n, (1 <= i <= n)%nat ->
                              nth_error (seq 1 n) (i - 1) = Some i).
      { intros i n Hi.
        rewrite nth_error_nth' with (d := 0%nat) by (rewrite length_seq; lia).
        rewrite seq_nth by lia. f_equal. lia. }
      split; apply P; lia.
Qed.

End ZeroNormClaims.

Lemma zero_norm_distance_zero_vector :
  ((norm [0; 0]%float =? 0)%float = true \/ (norm [1; 0]%float =? 0)%float = true) /\
  is_finite (cosineDistance [0; 0]%float [1; 0]%float) = false /\
  findNearestNeighbors ([[1; 0]] ++ [0; 0] :: [[1; 0]; [2; 0]])%float [1; 0]%float 5
  = [1; 2; 3] /\
  nth_error
    (findNearestNeighbors ([[1; 0]] ++ [0; 0] :: [[1; 0]; [2; 0]])%float [1; 0]%float 5)
    0 = Some 1 /\
  nth_error
    (findNearestNeighbors ([[1; 0]] ++ [0; 0] :: [[1; 0]; [2; 0]])%float [1; 0]%float 5)
    1 = Some 2.
Proof.
  assert (H : (norm [0; 0]%float =? 0)%float = true \/
              (norm [1; 0]%float =? 0)%float = true).
  { left. vm_compute. reflexivity. }
  split; [ exact H | ].
  destruct (zero_norm_distance_unordered [0; 0]%float [1; 0]%float H) as [F R].
  split; [ exact F | ].
  assert (N : is_nan (cosineDistance [0; 0]%float [1; 0]%float) = true)
    by (vm_compute; reflexivity).
  assert (U : unordered ([[1; 0]] ++ [[1; 0]; [2; 0]])%float [1; 0]%float).
  { intros e e' He He'. right. right.
    destruct He as [ <- | [ <- | [ <- | [] ]]];
      destruct He' as [ <- | [ <- | [ <- | [] ]]]; vm_compute; reflexivity. }
  destruct (proj2 (R N) [[1; 0]]%float [[1; 0]; [2; 0]]%float 5 U) as [E P].
  split; [ exact E | ].
  assert (B : (1 <= List.length [[1; 0]%float])%nat) by (cbn; lia).
  assert (J : (List.length [[1; 0]%float] < 2
               <= List.length [[1; 0]%float]
                  + List.length [[1; 0]; [2; 0]]%float)%nat) by (cbn; lia).
  assert (K : (2 <= 5)%nat) by lia.
  exact (P 2 B J K).
Defined.

(** * Selecting a word *)

Module SelectionFacts.
Import ArrayFacts Ranking NumberFacts DistanceFacts NeighbourFacts.

Lemma indexOf_from_firstAt vocab word : forall idx i,
  firstAt vocab word idx -> JS.indexOf_from vocab word i = Some (i + idx).
Proof.
  induction vocab as [ | y t IH ]; intros idx i [Hn Hfirst].
  - destruct idx; discriminate.
  - cbn [JS.indexOf_from]. destruct idx as [ | m ].
    + cbn in Hn. injection Hn as ->. rewrite String.eqb_refl. f_equal. lia.
    + destruct (String.eqb_spec y word) as [ E | _ ].
      * exfalso. apply (Hfirst 0); [ lia | cbn; congruence ].
      * rewrite (IH m (S i)); [ f_equal; lia | ].
        split; [ exact Hn | ].
        intros j Hj. apply (Hfirst (S j)). lia.
Qed.

(** [indexOf] finds the first index at which the word is stored. *)
Lemma indexOf_firstAt vocab word idx :
  firstAt vocab word idx -> JS.indexOf vocab word = Some idx.
Proof.
  intros H. unfold JS.indexOf. now rewrite (indexOf_from_firstAt _ _ idx 0 H).
Qed.

Lemma StronglySorted_app_cross {A : Type} (R : A -> A -> Prop) l1 l2 x y :
  StronglySorted R (l1 ++ l2) -> In x l1 -> In y l2 -> R x y.
Proof.
  induction l1 as [ | a t IH ]; intros S Hx Hy; [ contradiction | ].
  cbn [app] in S. inversion S as [ | ? ? St Hall ]; subst.
  destruct Hx as [ <- | Hx ].
  - rewrite Forall_forall in Hall. apply Hall, in_or_app. now right.
  - now apply IH.
Qed.

(** The ranking starts with the index that ranks before all others. *)
Lemma ranking_starts_with store query own :
  (forall e, In e store -> is_nan (cosineDistance e query) = false) ->
  own < List.length store ->
  (forall j, j < List.length store -> j <> own ->
             ranksBefore store query own j) ->
  exists rest, map index (sortedItems store query) = own :: rest.
Proof.
  intros Hcmp Hown Hfirst.
  pose proof (ranking_sorted store query Hcmp) as Hs.
  pose proof (ranking_In store query) as Hr.
  destruct (map index (sortedItems store query)) as [ | first rest ].
  - apply Hr in Hown. contradiction.
  - destruct (Nat.eq_dec first own) as [ -> | Hne ]; [ now exists rest | ].
    exfalso. inversion Hs as [ | ? ? _ Hall ]; subst.
    rewrite Forall_forall in Hall.
    assert (Hin : In own rest).
    { destruct (proj2 (Hr own) Hown) as [ E | H ]; [ congruence | exact H ]. }
    apply (ranksBefore_asym store query first own); [ now apply Hall | ].
    apply Hfirst; [ apply Hr; now left | exact Hne ].
Qed.

(** The neighbours computed for a stored vector that ranks first: the
    nearest other indices, nearest first. *)
Lemma nearest_of_first store query k own :
  (forall e, In e store -> is_nan (cosineDistance e query) = false) ->
  own < List.length store ->
  (forall j, j < List.length store -> j <> own ->
             ranksBefore store query own j) ->
  List.length (findNearestNeighbors store query k)
  = Nat.min k (List.length store - 1) /\
  NoDup (findNearestNeighbors store query k) /\
  StronglySorted (ranksBefore store query) (findNearestNeighbors store query k) /\
  ~ In own (findNearestNeighbors store query k) /\
  (forall i, In i (findNearestNeighbors store query k) ->
             i < List.length store) /\
  (forall i j,
     In i (findNearestNeighbors store query k) ->
     j < List.length store -> j <> own ->
     ~ In j (findNearestNeighbors store query k) ->
     ranksBefore store query i j).
Proof.
  intros Hcmp Hown Hfirst.
  split; [ apply nearest_length | ].
  rewrite findNearestNeighbors_unfold.
  destruct (ranking_starts_with store query own Hcmp Hown Hfirst) as [rest E].
  pose proof (ranking_sorted store query Hcmp) as Hs.
  pose proof (ranking_NoDup store query) as Hn.
  pose proof (ranking_In store query) as Hr.
  rewrite E in *. cbn [tl].
  inversion Hs as [ | ? ? Hrest _ ]; subst.
  inversion Hn as [ | ? ? Hnot Hnd ]; subst.
  split; [ now apply firstn_NoDup | ].
  split; [ now apply StronglySorted_firstn | ].
  split; [ intros H; apply Hnot; now apply firstn_In in H | ].
  split.
  - intros i H. apply Hr. right. now apply firstn_In in H.
  - intros i j Hi Hj Hne Hout.
    assert (Hin : In j rest).
    { destruct (proj2 (Hr j) Hj) as [ Q | H ]; [ congruence | exact H ]. }
    rewrite <- (firstn_skipn k rest) in Hin, Hrest.
    apply in_app_or in Hin. destruct Hin as [ Hin | Hin ]; [ contradiction | ].
    exact (StronglySorted_app_cross _ _ _ i j Hrest Hi Hin).
Qed.

End SelectionFacts.

Section SelectionClaims.
Import SelectionFacts.

(** C8 as stated fails for the second kind of click.  In [starAdded] the
    word "star" is highlighted; clicking "sun" stores the neighbours 1, 2
    and 3 in store order, although index 3 is nearer to "sun" than index 1:
    the distance of the zero vector at index 2 is NaN and the comparator
    orders no pair with it.  And in [catSelected], where "cat" is
    highlighted, clicking "Cat" at index 1 stores index 1 itself as its
    neighbour, the slip of C1. *)
Lemma select_other_word_unranked :
  (highlightedWord starAdded = Some "star"%string /\
   currentEmbeddings starAdded = unsortedStore /\
   highlightedWord (onSelect "sun" starAdded) = Some "sun"%string /\
   nearestIndexes (onSelect "sun" starAdded) = [1; 2; 3] /\
   (distanceTo unsortedStore [1; 0]%float 3
    <? distanceTo unsortedStore [1; 0]%float 1)%float = true) /\
  (highlightedWord catSelected = Some "cat"%string /\
   JS.indexOf (currentVocab catSelected) "Cat" = Some 1 /\
   nearestIndexes (onSelect "Cat" catSelected) = [1]).
Proof. repeat split; vm_compute; reflexivity. Qed.

(** C8 (amended): clicking the highlighted word clears the highlight and
    the neighbour list.  Clicking another word, stored first at [idx] with a
    vector to which no stored vector has a NaN distance and to which the
    vector at [idx] itself ranks first, highlights that word and stores the
    nearest other indices: [min 5 (n - 1)] indices of stored vectors, none
    twice, [idx] not among them, in non-decreasing distance with equal
    distances in ascending index, and every index left out other than [idx]
    ranks behind every index stored. *)
Theorem select_toggles w st :
  highlightedWord st = Some w ->
  (highlightedWord (onSelect w st) = None /\
   nearestIndexes (onSelect w st) = []) /\
  (forall other idx embedding,
     other <> w ->
     firstAt (currentVocab st) other idx ->
     nth_error (currentEmbeddings st) idx = Some embedding ->
     (forall e, In e (currentEmbeddings st) ->
                is_nan (cosineDistance e embedding) = false) ->
     (forall j, j < List.length (currentEmbeddings st) -> j <> idx ->
                ranksBefore (currentEmbeddings st) embedding idx j) ->
     highlightedWord (onSelect other st) = Some other /\
     List.length (nearestIndexes (onSelect other st))
     = Nat.min 5 (List.length (currentEmbeddings st) - 1) /\
     NoDup (nearestIndexes (onSelect other st)) /\
     StronglySorted (ranksBefore (currentEmbeddings st) embedding)
       (nearestIndexes (onSelect other st)) /\
     ~ In idx (nearestIndexes (onSelect other st)) /\
     (forall i, In i (nearestIndexes (onSelect other st)) ->
                i < List.length (currentEmbeddings st)) /\
     (forall i j,
        In i (nearestIndexes (onSelect other st)) ->
        j < List.length (currentEmbeddings st) -> j <> idx ->
        ~ In j (nearestIndexes (onSelect other st)) ->
        ranksBefore (currentEmbeddings st) embedding i j)).
Proof.
  intros Hw. split.
  - unfold onSelect, isHighlighted. rewrite Hw, String.eqb_refl.
    split; reflexivity.
  - intros other idx embedding Hne Hat Hemb Hcmp Hfirst.
    assert (Hidx : idx < List.length (currentEmbeddings st)).
    { apply nth_error_Some. congruence. }
    assert (E : onSelect other st
                = setNearestIndexes
                    (findNearestNeighbors (currentEmbeddings st) embedding 5)
                    (setHighlightedWord (Some other) st)).
    { unfold onSelect, isHighlighted. rewrite Hw.
      destruct (String.eqb_spec w other) as [ Q | _ ]; [ now elim Hne | ].
      cbn [currentVocab currentEmbeddings setHighlightedWord].
      now rewrite (indexOf_firstAt _ _ _ Hat), Hemb. }
    rewrite E. cbn [highlightedWord nearestIndexes setNearestIndexes].
    split; [ reflexivity | ].
    exact (nearest_of_first (currentEmbeddings st) embedding 5 idx
             Hcmp Hidx Hfirst).
Qed.

End SelectionClaims.

Lemma select_toggles_sun :
  highlightedWord sunSelected = Some "sun"%string /\
  (highlightedWord (onSelect "sun" sunSelected) = None /\
   nearestIndexes (onSelect "sun" sunSelected) = []) /\
  (highlightedWord (onSelect "moon" sunSelected) = Some "moon"%string /\
   List.length (nearestIndexes (onSelect "moon" sunSelected)) = 2 /\
   StronglySorted (ranksBefore (currentEmbeddings sunSelected) [0; 1]%float)
     (nearestIndexes (onSelect "moon" sunSelected)) /\
   ~ In 1 (nearestIndexes (onSelect "moon" sunSelected))).
Proof.
  split; [ reflexivity | ].
  destruct (select_toggles "sun"%string sunSelected eq_refl) as [Hoff Hon].
  split; [ exact Hoff | ].
  assert (Hne : "moon"%string <> "sun"%string) by discriminate.
  assert (Hat : firstAt (currentVocab sunSelected) "moon" 1).
  { split; [ reflexivity | ].
    intros [ | j ] Hj; [ discriminate | lia ]. }
  assert (Hemb : nth_error (currentEmbeddings sunSelected) 1 = Some [0; 1]%float)
    by reflexivity.
  assert (Hcmp : forall e, In e (currentEmbeddings sunSelected) ->
                           is_nan (cosineDistance e [0; 1]%float) = false).
  { intros e [ <- | [ <- | [ <- | [] ]]]; vm_compute; reflexivity. }
  assert (Hfirst : forall j,
             j < List.length (currentEmbeddings sunSelected) -> j <> 1 ->
             ranksBefore (currentEmbeddings sunSelected) [0; 1]%float 1 j).
  { intros [ | [ | [ | j ]]] Hj Hj1; [ | now elim Hj1 | | cbn in Hj; lia ];
      left; vm_compute; reflexivity. }
  destruct (Hon "moon"%string 1 [0; 1]%float Hne Hat Hemb Hcmp Hfirst)
    as (Hh & Hlen & _ & Hsorted & Hout & _).
  split; [ exact Hh | ]. split; [ exact Hlen | ].
  split; [ exact Hsorted | exact Hout ].
Defined.
